(** * data.task: the [Task] structure and its combinators

    A shallow embedding of [lib/task] (the CommonJS module exporting [Task]).
    A Task wraps a fork procedure, which receives a failure and a success
    continuation and returns a run-state, and a cleanup procedure for that
    run-state.  Fork procedures, continuations and the closures the
    combinators build are Rocq functions in a state-and-exception monad [M];
    the closure-local variables of one fork invocation of [ap] or [concat]
    live in a frame of the world, so that callbacks arriving in later turns
    of the event loop see the values left by earlier ones.

    Conventions.  The functions that the user passes to [map], [fold],
    [bimap], [rejectedMap] and [map2] .. [map10], and the functions that
    travel as success values to [ap], are values ([Val]) applied with
    [call]; their bodies are the parameter [native], pure but free to throw.
    The functions passed to [chain] and [orElse] return Tasks and are Rocq
    functions.  The fork procedures of the inputs of [ap] and [concat] are
    described by what they do with their continuations ([Behaviour], and
    the later turns of an execution); the calls that leave the module are
    recorded in the trace of the world. *)

From Stdlib Require Import ZArith Lia.
From stdpp Require Import base list strings.

Set Warnings "-register-all".

Open Scope string_scope.
Open Scope list_scope.

(** ** JavaScript values *)

(** The values that flow through the continuations and run-states.  A
    function value is a closure: a code pointer with its captured
    environment ([VFun]), or one of the curried closures returned by the
    helpers [par2] .. [par10] ([VPar f n got]: [f] awaits [n] arguments in
    total, [got] are the ones received so far). *)
Inductive Val : Type :=
| VUndef
| VNum (n : Z)
| VStr (s : string)
| VArr (xs : list Val)
| VFun (code : nat) (env : list Val)
| VPar (f : Val) (arity : nat) (got : list Val).

Inductive Exn : Type :=
| ReferenceError (name : string)
| TypeError (what : string)
| Thrown (v : Val).

Inductive Res (A : Type) : Type :=
| Ok (a : A)
| Throw (e : Exn).
Arguments Ok {A} a.
Arguments Throw {A} e.

(** [state[i]].  A [VStr] holds a string one UTF-16 code unit per
    character, each below 256, so that the character at position [i] is the
    code unit that JavaScript indexes; a string with a code unit above 255
    has no [VStr]. *)
Definition index (state : Val) (i : nat) : Res Val :=
  match state with
  | VUndef => Throw (TypeError "cannot read properties of undefined")
  | VArr xs => Ok (nth i xs VUndef)
  | VStr s =>
      Ok (match String.get i s with
          | Some c => VStr (String c EmptyString)
          | None => VUndef
          end)
  | _ => Ok VUndef
  end.

(** ** The world: frames, deferred procedures, observable calls *)

(** Cleanup procedures: the default [function() {}], a procedure supplied by
    the user (opaque: its calls are recorded under its tag), or the
    [cleanupBoth] closure of [ap] and [concat]. *)
Inductive Cleanup : Type :=
| NoCleanup
| UserCleanup (tag : nat)
| CleanupBoth (cleanupThis cleanupThat : Cleanup).

(** The variables declared in the fork procedure of [ap]. *)
Module ApFrame.
Record t : Type := mk {
  func : Val;
  funcLoaded : bool;
  val : Val;
  valLoaded : bool;
  rejected : bool;
  allState : Val
}.
(** [var func, funcLoaded = false; var val, valLoaded = false;
     var rejected = false; var allState;] *)
Definition fresh : t := mk VUndef false VUndef false false VUndef.
Definition set_func (x : Val) (f : t) : t :=
  mk x (funcLoaded f) (val f) (valLoaded f) (rejected f) (allState f).
Definition set_funcLoaded (b : bool) (f : t) : t :=
  mk (func f) b (val f) (valLoaded f) (rejected f) (allState f).
Definition set_val (x : Val) (f : t) : t :=
  mk (func f) (funcLoaded f) x (valLoaded f) (rejected f) (allState f).
Definition set_valLoaded (b : bool) (f : t) : t :=
  mk (func f) (funcLoaded f) (val f) b (rejected f) (allState f).
Definition set_rejected (b : bool) (f : t) : t :=
  mk (func f) (funcLoaded f) (val f) (valLoaded f) b (allState f).
Definition set_allState (x : Val) (f : t) : t :=
  mk (func f) (funcLoaded f) (val f) (valLoaded f) (rejected f) x.
End ApFrame.

(** The variables declared in the fork procedure of [concat]. *)
Module ConcatFrame.
Record t : Type := mk {
  done : bool;
  allState : Val
}.
(** [var done = false; var allState;] *)
Definition fresh : t := mk false VUndef.
Definition set_done (b : bool) (f : t) : t := mk b (allState f).
Definition set_allState (x : Val) (f : t) : t := mk (done f) x.
End ConcatFrame.

#[global] Instance ApFrame_inhabited : Inhabited ApFrame.t :=
  populate ApFrame.fresh.
#[global] Instance ConcatFrame_inhabited : Inhabited ConcatFrame.t :=
  populate ConcatFrame.fresh.

Inductive FrameRef : Type :=
| InAp (fr : nat)
| InConcat (fr : nat).

(** A procedure handed to [delayed]: [function(){ cleanupBoth(allState) }],
    closed over [cleanupBoth] and over the frame whose [allState] it reads
    when it runs. *)
Record Thunk : Type := {
  thunk_cleanup : Cleanup;
  thunk_frame : FrameRef
}.

(** Calls that leave the module: the two continuations given to the fork
    under observation, the platform's [delayed], and user cleanups. *)
Inductive Event : Type :=
| CallReject (x : Val)
| CallResolve (x : Val)
| CallDelayed
| CallCleanup (tag : nat) (state : Val).

Record World : Type := {
  apFrames : list ApFrame.t;
  concatFrames : list ConcatFrame.t;
  queue : list Thunk;
  trace : list Event
}.

Definition empty_world : World :=
  {| apFrames := []; concatFrames := []; queue := []; trace := [] |}.

(** ** The monad of the module's procedures *)

Definition M (A : Type) : Type := World -> Res A * World.

Definition ret {A} (a : A) : M A := fun w => (Ok a, w).

Definition bind {A B} (c : M A) (k : A -> M B) : M B :=
  fun w =>
    match c w with
    | (Ok a, w') => k a w'
    | (Throw e, w') => (Throw e, w')
    end.

Definition throw {A} (e : Exn) : M A := fun w => (Throw e, w).

Definition lift {A} (r : Res A) : M A := fun w => (r, w).

Declare Scope js_scope.
Delimit Scope js_scope with js.
Notation "x <- c1 ;; c2" := (bind c1 (fun x => c2))
  (at level 100, c1 at next level, right associativity) : js_scope.
Notation "c1 ;; c2" := (bind c1 (fun _ => c2))
  (at level 100, right associativity) : js_scope.
Open Scope js_scope.

Definition Cont : Type := Val -> M Val.

Definition emit (e : Event) : M unit :=
  fun w =>
    (Ok tt, {| apFrames := apFrames w; concatFrames := concatFrames w;
               queue := queue w; trace := trace w ++ [e] |}).

(** [delayed(thunk)]: [setImmediate], [process.nextTick] or [setTimeout];
    the procedure runs in a later turn. *)
Definition delayed (th : Thunk) : M unit :=
  fun w =>
    (Ok tt, {| apFrames := apFrames w; concatFrames := concatFrames w;
               queue := queue w ++ [th]; trace := trace w ++ [CallDelayed] |}).

Definition allocAp : M nat :=
  fun w =>
    (Ok (length (apFrames w)),
     {| apFrames := apFrames w ++ [ApFrame.fresh];
        concatFrames := concatFrames w;
        queue := queue w; trace := trace w |}).

Definition getAp (fr : nat) : M ApFrame.t :=
  fun w => (Ok (apFrames w !!! fr), w).

Definition modifyAp (fr : nat) (g : ApFrame.t -> ApFrame.t) : M unit :=
  fun w =>
    (Ok tt, {| apFrames := <[fr := g (apFrames w !!! fr)]> (apFrames w);
               concatFrames := concatFrames w;
               queue := queue w; trace := trace w |}).

Definition allocConcat : M nat :=
  fun w =>
    (Ok (length (concatFrames w)),
     {| apFrames := apFrames w;
        concatFrames := concatFrames w ++ [ConcatFrame.fresh];
        queue := queue w; trace := trace w |}).

Definition getConcat (fr : nat) : M ConcatFrame.t :=
  fun w => (Ok (concatFrames w !!! fr), w).

Definition modifyConcat (fr : nat) (g : ConcatFrame.t -> ConcatFrame.t)
  : M unit :=
  fun w =>
    (Ok tt, {| apFrames := apFrames w;
               concatFrames :=
                 <[fr := g (concatFrames w !!! fr)]> (concatFrames w);
               queue := queue w; trace := trace w |}).

(** Calling a cleanup procedure.  [cleanupBoth(state)] is
    [cleanupThis(state[0]); cleanupThat(state[1]);]. *)
Fixpoint call_cleanup (c : Cleanup) (state : Val) : M unit :=
  match c with
  | NoCleanup => ret tt
  | UserCleanup tag => emit (CallCleanup tag state)
  | CleanupBoth cleanupThis cleanupThat =>
      s0 <- lift (index state 0);;
      call_cleanup cleanupThis s0;;
      s1 <- lift (index state 1);;
      call_cleanup cleanupThat s1
  end.

(** Running [function(){ cleanupBoth(allState) }]. *)
Definition run_thunk (th : Thunk) : M unit :=
  match thunk_frame th with
  | InAp fr =>
      f <- getAp fr;;
      call_cleanup (thunk_cleanup th) (ApFrame.allState f)
  | InConcat fr =>
      f <- getConcat fr;;
      call_cleanup (thunk_cleanup th) (ConcatFrame.allState f)
  end.

(** One later turn of the event loop given to the deferred procedures: the
    oldest one runs; an exception it raises is not caught by anyone. *)
Definition tick (w : World) : World :=
  match queue w with
  | [] => w
  | th :: rest =>
      snd (run_thunk th {| apFrames := apFrames w;
                           concatFrames := concatFrames w;
                           queue := rest; trace := trace w |})
  end.

(** ** Tasks *)

Record Task : Type := {
  fork : Cont -> Cont -> M Val;
  cleanup : Cleanup
}.

(** [function Task(computation, cleanup)]: the second argument is optional,
    [this.cleanup = cleanup || function() {}]. *)
Definition new_Task (computation : Cont -> Cont -> M Val)
    (cleanup : option Cleanup) : Task :=
  {| fork := computation;
     cleanup := match cleanup with Some c => c | None => NoCleanup end |}.

(** ** The environment of a fork *)

(** The continuations of the observer that forks the Task under study: their
    calls are recorded in the trace. *)
Definition on_reject : Cont := fun x => emit (CallReject x);; ret VUndef.
Definition on_resolve : Cont := fun x => emit (CallResolve x);; ret VUndef.

(** What a fork procedure written by the user does with its continuations:
    during the call it settles any number of times ([sync], in order; an
    exception of a continuation ends the call) and returns [runState];
    settlements of later turns are delivered to the same continuations by
    the event loop. *)
Inductive Outcome : Type :=
| Fail (a : Val)
| Succeed (b : Val).

Definition settle (o : Outcome) (reject resolve : Cont) : M Val :=
  match o with
  | Fail a => reject a
  | Succeed b => resolve b
  end.

Fixpoint settle_all (os : list Outcome) (reject resolve : Cont) : M unit :=
  match os with
  | [] => ret tt
  | o :: os' => settle o reject resolve;; settle_all os' reject resolve
  end.

Record Behaviour : Type := {
  sync : list Outcome;
  runState : Val
}.

Definition opaque (tag : nat) (b : Behaviour) : Task :=
  new_Task (fun reject resolve =>
    settle_all (sync b) reject resolve;;
    ret (runState b))
    (Some (UserCleanup tag)).

Inductive Side : Type := This | That.

(** A later turn of the event loop: one input settles, or the oldest
    deferred procedure runs. *)
Inductive Turn : Type :=
| Late (s : Side) (o : Outcome)
| Tick.

Definition side_eqb (s s' : Side) : bool :=
  match s, s' with
  | This, This | That, That => true
  | _, _ => false
  end.

(** All settlements of both inputs in the order of their arrival: [this] is
    forked first, then [that], then the later turns. *)
Definition lates (late : list Turn) : list (Side * Outcome) :=
  flat_map (fun t => match t with Late s o => [(s, o)] | Tick => [] end) late.

Definition history (bThis bThat : Behaviour) (late : list Turn)
  : list (Side * Outcome) :=
  map (pair This) (sync bThis) ++ map (pair That) (sync bThat) ++ lates late.

(** The settlements of one side. *)
Definition outs (s : Side) (h : list (Side * Outcome)) : list Outcome :=
  omap (fun e => if side_eqb s (fst e) then Some (snd e) else None) h.

(** The calls of the observer's continuations, of [delayed] and of the
    cleanups in a trace. *)
Definition is_settlement (e : Event) : bool :=
  match e with CallReject _ | CallResolve _ => true | _ => false end.
Definition is_delayed (e : Event) : bool :=
  match e with CallDelayed => true | _ => false end.
Definition is_cleanup (e : Event) : bool :=
  match e with CallCleanup _ _ => true | _ => false end.

Definition settlements (w : World) : list Event :=
  List.filter is_settlement (trace w).
Definition schedulings (w : World) : list Event :=
  List.filter is_delayed (trace w).
Definition cleanups (w : World) : list Event :=
  List.filter is_cleanup (trace w).

(** Two user functions for the examples: code 0 is
    [function (x) { return x + 1 }] and code 1 is
    [function (a, b, c) { return a + b + c }], both on numbers. *)
Definition example_native (code : nat) (env args : list Val) : Res Val :=
  match code, args with
  | 0, [VNum n] => Ok (VNum (n + 1))
  | 1, [VNum a; VNum b; VNum c] => Ok (VNum (a + b + c))
  | _, _ => Throw (TypeError "operand is not a number")
  end.

(** The object given to [cata]. *)
Module Pattern.
Record t : Type := mk { Rejected : Val; Resolved : Val }.
End Pattern.

Section TaskCode.

(** The bodies of the user's functions, by code pointer: environment and
    arguments to result.  They are pure, but may throw. *)
Variable native : nat -> list Val -> list Val -> Res Val.

(** [fn(args...)] *)
Fixpoint call (fn : Val) (args : list Val) : Res Val :=
  match fn with
  | VFun code env => native code env args
  | VPar f arity got =>
      let got' := got ++ [hd VUndef args] in
      if Nat.eqb (length got') arity then call f got' else Ok (VPar f arity got')
  | _ => Throw (TypeError "not a function")
  end.

Definition _of (b : Val) : Task :=
  new_Task (fun _ resolve => resolve b) None.

Definition _rejected (a : Val) : Task :=
  new_Task (fun reject _ => reject a) None.

(** In the transformers below, [fork this] and [cleanup this] stand for the
    locals [var fork = this.fork; var cleanup = this.cleanup;]. *)
Definition _map (this : Task) (f : Val) : Task :=
  new_Task (fun reject resolve =>
    fork this
      (fun a => reject a)
      (fun b => r <- lift (call f [b]);; resolve r))
    (Some (cleanup this)).

Definition _chain (this : Task) (f : Val -> Task) : Task :=
  new_Task (fun reject resolve =>
    fork this
      (fun a => reject a)
      (fun b => fork (f b) reject resolve))
    (Some (cleanup this)).

(** *** Apply *)

Definition setFunc (fr : nat) : Val -> M unit :=
  fun x =>
    modifyAp fr (ApFrame.set_funcLoaded true);;
    modifyAp fr (ApFrame.set_func x).

Definition setVal (fr : nat) : Val -> M unit :=
  fun x =>
    modifyAp fr (ApFrame.set_valLoaded true);;
    modifyAp fr (ApFrame.set_val x).

Definition guardResolve (fr : nat) (cleanupBoth : Cleanup) (resolve : Cont)
    (setter : Val -> M unit) : Cont :=
  fun x =>
    f <- getAp fr;;
    if ApFrame.rejected f then ret VUndef
    else
      setter x;;
      f <- getAp fr;;
      if ApFrame.funcLoaded f && ApFrame.valLoaded f then
        delayed {| thunk_cleanup := cleanupBoth; thunk_frame := InAp fr |};;
        r <- lift (call (ApFrame.func f) [ApFrame.val f]);;
        resolve r
      else ret x.

Definition guardReject (fr : nat) (reject : Cont) : Cont :=
  fun x =>
    f <- getAp fr;;
    if negb (ApFrame.rejected f) then
      modifyAp fr (ApFrame.set_rejected true);;
      reject x
    else ret VUndef.

Definition _ap (this that : Task) : Task :=
  let forkThis := fork this in
  let forkThat := fork that in
  let cleanupThis := cleanup this in
  let cleanupThat := cleanup that in
  let cleanupBoth := CleanupBoth cleanupThis cleanupThat in
  new_Task (fun reject resolve =>
    fr <- allocAp;;
    thisState <- forkThis (guardReject fr reject)
                   (guardResolve fr cleanupBoth resolve (setFunc fr));;
    thatState <- forkThat (guardReject fr reject)
                   (guardResolve fr cleanupBoth resolve (setVal fr));;
    modifyAp fr (ApFrame.set_allState (VArr [thisState; thatState]));;
    ret (VArr [thisState; thatState]))
    (Some cleanupBoth).

(** *** map2 .. map10 *)

(** Evaluating an identifier that no enclosing scope binds. *)
Definition unbound (name : string) : M Val := throw (ReferenceError name).

Definition _map2 (this : Task) (f : Val) (t2 : Task) : Task :=
  let par2 := fun _t1 => VPar f 2 [_t1] in
  _ap (new_Task (fun reject resolve =>
         fork this
           (fun a => reject a)
           (fun b => resolve (par2 b)))
         (Some (cleanup this)))
      t2.

(** The Task that [map3] .. [map10] build before their [ap] calls; its
    success branch reads [resolve(par2(b))] in each of them, and [par2] is
    local to [map2]. *)
Definition head_par2 (this : Task) : Task :=
  new_Task (fun reject resolve =>
    fork this
      (fun a => reject a)
      (fun b =>
         par2 <- unbound "par2";;
         r <- lift (call par2 [b]);;
         resolve r))
    (Some (cleanup this)).

Definition _map3 (this : Task) (f : Val) (t2 t3 : Task) : Task :=
  let par3 := fun _t1 => VPar f 3 [_t1] in
  _ap (_ap (head_par2 this) t2) t3.








(** *** Semigroup, Monoid *)

Definition guard (fr : nat) (cleanupBoth : Cleanup) (f : Cont) : Cont :=
  fun x =>
    c <- getConcat fr;;
    if negb (ConcatFrame.done c) then
      modifyConcat fr (ConcatFrame.set_done true);;
      delayed {| thunk_cleanup := cleanupBoth; thunk_frame := InConcat fr |};;
      f x
    else ret VUndef.

Definition _concat (this that : Task) : Task :=
  let forkThis := fork this in
  let forkThat := fork that in
  let cleanupThis := cleanup this in
  let cleanupThat := cleanup that in
  let cleanupBoth := CleanupBoth cleanupThis cleanupThat in
  new_Task (fun reject resolve =>
    fr <- allocConcat;;
    thisState <- forkThis (guard fr cleanupBoth reject)
                   (guard fr cleanupBoth resolve);;
    thatState <- forkThat (guard fr cleanupBoth reject)
                   (guard fr cleanupBoth resolve);;
    modifyConcat fr (ConcatFrame.set_allState (VArr [thisState; thatState]));;
    ret (VArr [thisState; thatState]))
    (Some cleanupBoth).

Definition _empty : Task :=
  new_Task (fun _ _ => ret VUndef) None.

(** *** Show *)

Definition _toString (this : Task) : string := "Task".

(** *** Extracting and recovering, folds *)

Definition _orElse (this : Task) (f : Val -> Task) : Task :=
  new_Task (fun reject resolve =>
    fork this
      (fun a => fork (f a) reject resolve)
      (fun b => resolve b))
    (Some (cleanup this)).

Definition _fold (this : Task) (f g : Val) : Task :=
  new_Task (fun reject resolve =>
    fork this
      (fun a => r <- lift (call f [a]);; resolve r)
      (fun b => r <- lift (call g [b]);; resolve r))
    (Some (cleanup this)).

Definition _cata (this : Task) (pattern : Pattern.t) : Task :=
  _fold this (Pattern.Rejected pattern) (Pattern.Resolved pattern).

Definition _swap (this : Task) : Task :=
  new_Task (fun reject resolve =>
    fork this
      (fun a => resolve a)
      (fun b => reject b))
    (Some (cleanup this)).

Definition _bimap (this : Task) (f g : Val) : Task :=
  new_Task (fun reject resolve =>
    fork this
      (fun a => r <- lift (call f [a]);; reject r)
      (fun b => r <- lift (call g [b]);; resolve r))
    (Some (cleanup this)).

Definition _rejectedMap (this : Task) (f : Val) : Task :=
  new_Task (fun reject resolve =>
    fork this
      (fun a => r <- lift (call f [a]);; reject r)
      (fun b => resolve b))
    (Some (cleanup this)).

(** *** Executions of [ap] and [concat] on opaque inputs *)

Definition ap_setter (fr : nat) (s : Side) : Val -> M unit :=
  match s with This => setFunc fr | That => setVal fr end.

(** A settlement of input [s]: it calls the continuation that the fork
    procedure of [ap] handed to that input. *)
Definition ap_late (fr : nat) (cleanupBoth : Cleanup) (s : Side)
    (o : Outcome) : M Val :=
  settle o (guardReject fr on_reject)
    (guardResolve fr cleanupBoth on_resolve (ap_setter fr s)).

Definition ap_turn (fr : nat) (cleanupBoth : Cleanup) (t : Turn) (w : World)
  : World :=
  match t with
  | Late s o => snd (ap_late fr cleanupBoth s o w)
  | Tick => tick w
  end.

(** [this.ap(that)] forked once in the empty world by the observer (an
    exception of the fork is not caught), followed by the later turns.  The
    frame of that fork invocation is frame 0. *)
Definition ap_exec (bThis bThat : Behaviour) (late : list Turn) : World :=
  let t := _ap (opaque 0 bThis) (opaque 1 bThat) in
  foldl (fun w turn => ap_turn 0 (cleanup t) turn w)
    (snd (fork t on_reject on_resolve empty_world)) late.

Definition concat_late (fr : nat) (cleanupBoth : Cleanup) (o : Outcome)
  : M Val :=
  settle o (guard fr cleanupBoth on_reject) (guard fr cleanupBoth on_resolve).

Definition concat_turn (fr : nat) (cleanupBoth : Cleanup) (t : Turn)
    (w : World) : World :=
  match t with
  | Late _ o => snd (concat_late fr cleanupBoth o w)
  | Tick => tick w
  end.

Definition concat_exec (bThis bThat : Behaviour) (late : list Turn) : World :=
  let t := _concat (opaque 0 bThis) (opaque 1 bThat) in
  foldl (fun w turn => concat_turn 0 (cleanup t) turn w)
    (snd (fork t on_reject on_resolve empty_world)) late.

(** The sequential transformers, with their arguments. *)
Inductive Transformer : Type :=
| Map (f : Val)
| Chain (f : Val -> Task)
| OrElse (f : Val -> Task)
| RejectedMap (f : Val)
| Bimap (f g : Val)
| Swap
| Fold (f g : Val)
| Cata (pattern : Pattern.t).

Definition transform (tr : Transformer) (this : Task) : Task :=
  match tr with
  | Map f => _map this f
  | Chain f => _chain this f
  | OrElse f => _orElse this f
  | RejectedMap f => _rejectedMap this f
  | Bimap f g => _bimap this f g
  | Swap => _swap this
  | Fold f g => _fold this f g
  | Cata pattern => _cata this pattern
  end.

(** A fork procedure that begins by calling its success continuation, as
    the one of [Task.of(a)] does. *)
Definition resolves_first (t : Task) : Prop :=
  exists a k,
    forall reject resolve w,
      fork t reject resolve w = bind (resolve a) (k reject resolve) w.


(** Worlds with the single frame of one observed fork invocation. *)
Definition apW (f : ApFrame.t) (q : list Thunk) (t : list Event) : World :=
  {| apFrames := [f]; concatFrames := []; queue := q; trace := t |}.

Definition concatW (c : ConcatFrame.t) (q : list Thunk) (t : list Event)
  : World :=
  {| apFrames := []; concatFrames := [c]; queue := q; trace := t |}.

(** The [cleanupBoth] closure and the deferred procedure of the observed
    executions. *)
Definition cb01 : Cleanup := CleanupBoth (UserCleanup 0) (UserCleanup 1).
Definition ap_thunk : Thunk :=
  {| thunk_cleanup := cb01; thunk_frame := InAp 0 |}.
Definition concat_thunk : Thunk :=
  {| thunk_cleanup := cb01; thunk_frame := InConcat 0 |}.

(** The frame of [ap] after input [s] has recorded its success value. *)
Definition loaded (s : Side) (b : Val) (f : ApFrame.t) : ApFrame.t :=
  match s with
  | This => ApFrame.set_func b (ApFrame.set_funcLoaded true f)
  | That => ApFrame.set_val b (ApFrame.set_valLoaded true f)
  end.

Definition event_of (o : Outcome) : Event :=
  match o with
  | Fail a => CallReject a
  | Succeed b => CallResolve b
  end.

Definition is_ok {A} (r : Res A) : Prop :=
  match r with Ok _ => True | Throw _ => False end.

(** Where an execution of [ap] stands after a history: still waiting for
    one side at least ([Pending], with the sides that have succeeded), failed
    before both sides had succeeded ([Failed]), or joined ([Joined]: both
    sides succeeded before any failure). *)
Inductive Phase : Type :=
| Pending (gotThis gotThat : bool)
| Failed (a : Val)
| Joined.

Definition phase_step (p : Phase) (e : Side * Outcome) : Phase :=
  match p with
  | Pending gotThis gotThat =>
      match snd e, fst e with
      | Fail a, _ => Failed a
      | Succeed _, This => if gotThat then Joined else Pending true gotThat
      | Succeed _, That => if gotThis then Joined else Pending gotThis true
      end
  | _ => p
  end.

Definition phase (h : list (Side * Outcome)) : Phase :=
  foldl phase_step (Pending false false) h.

Definition is_success (e : Side * Outcome) : Prop :=
  match snd e with Succeed _ => True | Fail _ => False end.

(** A list with no element, or with [x] alone. *)
Definition at_most_one {A} (x : A) (l : list A) : Prop := l = [] \/ l = [x].

Definition nonempty {A} (l : list A) : bool :=
  match l with [] => false | _ => true end.

(** The settlement that a race adopts: the first of the history. *)
Definition first_settlement (h : list (Side * Outcome)) : list Event :=
  match h with
  | [] => []
  | e :: _ => [event_of (snd e)]
  end.

(** ** Invariants of the executions *)

Definition fail_first_inv (h : list (Side * Outcome)) (w : World) : Prop :=
  exists f q t,
    w = apW f q t
    /\ match phase h with
       | Pending gT gH =>
           ApFrame.rejected f = false /\ ApFrame.funcLoaded f = gT
           /\ ApFrame.valLoaded f = gH /\ q = [] /\ t = []
       | Failed a =>
           ApFrame.rejected f = true /\ q = [] /\ t = [CallReject a]
       | Joined => True
       end.

Definition success_good (fv vv : Val) (h : list (Side * Outcome)) : Prop :=
  at_most_one (Succeed fv) (outs This h)
  /\ at_most_one (Succeed vv) (outs That h).

Definition success_inv (fv vv r : Val) (h : list (Side * Outcome))
  (w : World) : Prop :=
  exists f q t,
    w = apW f q t
    /\ (success_good fv vv h ->
        ApFrame.rejected f = false
        /\ ApFrame.funcLoaded f = nonempty (outs This h)
        /\ ApFrame.valLoaded f = nonempty (outs That h)
        /\ (ApFrame.funcLoaded f = true -> ApFrame.func f = fv)
        /\ (ApFrame.valLoaded f = true -> ApFrame.val f = vv)
        /\ List.filter is_settlement t =
             if ApFrame.funcLoaded f && ApFrame.valLoaded f
             then [CallResolve r] else []).

Definition race_inv (h : list (Side * Outcome)) (w : World) : Prop :=
  exists c q t,
    w = concatW c q t
    /\ ConcatFrame.done c = nonempty h
    /\ List.filter is_settlement t = first_settlement h.

Definition once_inv (h : list (Side * Outcome)) (w : World) : Prop :=
  exists c q t,
    w = concatW c q t
    /\ ((ConcatFrame.done c = false /\ q = [] /\ t = [])
        \/ (ConcatFrame.done c = true
            /\ exists o evs,
                 t = [CallDelayed; event_of o] ++ evs
                 /\ ((q = [concat_thunk] /\ evs = [])
                     \/ (q = []
                         /\ (evs = []
                             \/ exists x y,
                                  evs = [CallCleanup 0 x;
                                         CallCleanup 1 y]))))).

Definition latch_inv (h : list (Side * Outcome)) (w : World) : Prop :=
  exists f q t,
    w = apW f q t
    /\ exists rs tl,
         List.filter is_settlement t = map CallResolve rs ++ tl
         /\ ((ApFrame.rejected f = false /\ tl = [])
             \/ (ApFrame.rejected f = true /\ exists a, tl = [CallReject a])).

Definition single (h : list (Side * Outcome)) : Prop :=
  length (outs This h) <= 1 /\ length (outs That h) <= 1.

(** Nothing follows the join: no settlement of the history is delivered
    after both sides have succeeded with no failure before. *)
Fixpoint quiet_from (p : Phase) (h : list (Side * Outcome)) : bool :=
  match h with
  | [] => true
  | e :: h' =>
      match p with
      | Joined => false
      | _ => quiet_from (phase_step p e) h'
      end
  end.

Definition join_is_last (h : list (Side * Outcome)) : Prop :=
  quiet_from (Pending false false) h = true.

Definition until_join_inv (h : list (Side * Outcome)) (w : World) : Prop :=
  exists f q t,
    w = apW f q t
    /\ match phase h with
       | Pending gT gH =>
           ApFrame.rejected f = false /\ ApFrame.funcLoaded f = gT
           /\ ApFrame.valLoaded f = gH
           /\ List.filter is_settlement t = []
       | Failed a =>
           ApFrame.rejected f = true
           /\ List.filter is_settlement t = [CallReject a]
       | Joined =>
           join_is_last h -> length (List.filter is_settlement t) <= 1
       end.

(** The functions that arrive return on the values that arrive: every
    success value of [this], called with any success value of [that],
    returns. *)
Definition returns_on (o1 o2 : Outcome) : bool :=
  match o1, o2 with
  | Succeed fv, Succeed vv =>
      match call fv [vv] with Ok _ => true | Throw _ => false end
  | _, _ => true
  end.

Definition calls_return (h : list (Side * Outcome)) : bool :=
  forallb (fun o1 => forallb (returns_on o1) (outs That h)) (outs This h).

Definition after_join_inv (h : list (Side * Outcome)) (w : World) : Prop :=
  exists f q t,
    w = apW f q t
    /\ (ApFrame.funcLoaded f = true ->
        In (Succeed (ApFrame.func f)) (outs This h))
    /\ (ApFrame.valLoaded f = true ->
        In (Succeed (ApFrame.val f)) (outs That h))
    /\ match phase h with
       | Pending gT gH =>
           ApFrame.rejected f = false /\ ApFrame.funcLoaded f = gT
           /\ ApFrame.valLoaded f = gH
           /\ List.filter is_settlement t = []
       | Failed a => ApFrame.rejected f = true
       | Joined =>
           calls_return h = true ->
           ApFrame.funcLoaded f = true /\ ApFrame.valLoaded f = true
           /\ 1 <= length (List.filter is_settlement t)
           /\ (ApFrame.rejected f = true ->
               2 <= length (List.filter is_settlement t))
           /\ (join_is_last h \/ 2 <= length (List.filter is_settlement t))
       end.

(** ** Further definitions *)

(** User functions for the examples of the laws: code 0 returns its
    argument, code 1 adds one to a number, code 2 adds two to a number,
    code 3 is [function (a, b) { return a + b }] on numbers, code 4 always
    throws its argument. *)
Definition law_native (code : nat) (env args : list Val) : Res Val :=
  match code, args with
  | 0, [x] => Ok x
  | 1, [VNum n] => Ok (VNum (n + 1))
  | 2, [VNum n] => Ok (VNum (n + 2))
  | 3, [VNum a; VNum b] => Ok (VNum (a + b))
  | 4, [x] => Throw (Thrown x)
  | _, _ => Throw (TypeError "operand is not a number")
  end.

Definition failing (o : Outcome) : Prop :=
  match o with Fail _ => True | Succeed _ => False end.

Definition succeeding (o : Outcome) : Prop :=
  match o with Succeed _ => True | Fail _ => False end.

(** The outcome with its channel exchanged, and a behaviour with all its
    outcomes exchanged. *)
Definition flip (o : Outcome) : Outcome :=
  match o with
  | Fail a => Succeed a
  | Succeed b => Fail b
  end.

Definition flipped (b : Behaviour) : Behaviour :=
  {| sync := map flip (sync b); runState := runState b |}.

(** Tasks composed from opaque inputs by the transformers, [ap] and
    [concat]; the run-state their fork procedure returns, and the calls of
    the inputs' cleanup procedures from left to right, each with the
    run-state of its own input. *)
Inductive Plan : Type :=
| Leaf (tag : nat) (b : Behaviour)
| Transformed (tr : Transformer) (p : Plan)
| Applied (p1 p2 : Plan)
| Raced (p1 p2 : Plan).

Fixpoint build (p : Plan) : Task :=
  match p with
  | Leaf tag b => opaque tag b
  | Transformed tr p => transform tr (build p)
  | Applied p1 p2 => _ap (build p1) (build p2)
  | Raced p1 p2 => _concat (build p1) (build p2)
  end.

Fixpoint run_state_of (p : Plan) : Val :=
  match p with
  | Leaf _ b => runState b
  | Transformed _ p => run_state_of p
  | Applied p1 p2 | Raced p1 p2 => VArr [run_state_of p1; run_state_of p2]
  end.

Fixpoint leaf_cleanups (p : Plan) : list Event :=
  match p with
  | Leaf tag b => [CallCleanup tag (runState b)]
  | Transformed _ p => leaf_cleanups p
  | Applied p1 p2 | Raced p1 p2 => leaf_cleanups p1 ++ leaf_cleanups p2
  end.

(** The world after further calls have been recorded. *)
Definition recorded (w : World) (evs : list Event) : World :=
  {| apFrames := apFrames w; concatFrames := concatFrames w;
     queue := queue w; trace := trace w ++ evs |}.

(** The first outcome of a list, as a call of the observer. *)
Definition first_event (os : list Outcome) : list Event :=
  match os with
  | [] => []
  | o :: _ => [event_of o]
  end.

(** The calls that [cleanupBoth(state)] makes for two opaque inputs: none
    when reading [state[0]] or [state[1]] throws. *)
Definition cleanup_events (state : Val) : list Event :=
  match index state 0, index state 1 with
  | Ok s0, Ok s1 => [CallCleanup 0 s0; CallCleanup 1 s1]
  | _, _ => []
  end.

(** An execution of [concat] with its deferred cleanup: before a
    settlement nothing is recorded; after it, the cleanup is pending, or
    (once ticks are allowed) it has run on the [allState] of the frame. *)
Definition race_clean_inv (ticks : bool) (st : Val)
    (h : list (Side * Outcome)) (w : World) : Prop :=
  exists c q t,
    w = concatW c q t
    /\ ConcatFrame.allState c = st
    /\ match h with
       | [] => ConcatFrame.done c = false /\ q = [] /\ t = []
       | e :: _ =>
           ConcatFrame.done c = true
           /\ ((q = [concat_thunk] /\ t = [CallDelayed; event_of (snd e)])
               \/ (ticks = true /\ q = []
                   /\ t = [CallDelayed; event_of (snd e)]
                          ++ cleanup_events st))
       end.

(** The same for [ap] when each side succeeds at most once, with [fv] and
    with [vv], and [fv(vv)] is [r]. *)
Definition join_inv (ticks : bool) (fv vv r st : Val)
    (h : list (Side * Outcome)) (w : World) : Prop :=
  exists f q t,
    w = apW f q t
    /\ ApFrame.allState f = st
    /\ (success_good fv vv h ->
        ApFrame.rejected f = false
        /\ ApFrame.funcLoaded f = nonempty (outs This h)
        /\ ApFrame.valLoaded f = nonempty (outs That h)
        /\ (ApFrame.funcLoaded f = true -> ApFrame.func f = fv)
        /\ (ApFrame.valLoaded f = true -> ApFrame.val f = vv)
        /\ if ApFrame.funcLoaded f && ApFrame.valLoaded f
           then (q = [ap_thunk] /\ t = [CallDelayed; CallResolve r])
                \/ (ticks = true /\ q = []
                    /\ t = [CallDelayed; CallResolve r] ++ cleanup_events st)
           else q = [] /\ t = []).

(** *** Executions of [map2] on opaque inputs *)

(** What [map2] makes of a settlement of [this]: a success value [b]
    becomes the closure [par2(b)]. *)
Definition curried (f : Val) (o : Outcome) : Outcome :=
  match o with
  | Fail a => Fail a
  | Succeed b => Succeed (VPar f 2 [b])
  end.

Definition curried_event (f : Val) (e : Side * Outcome) : Side * Outcome :=
  match fst e with
  | This => (This, curried f (snd e))
  | That => e
  end.

Definition curried_turn (f : Val) (t : Turn) : Turn :=
  match t with
  | Late This o => Late This (curried f o)
  | _ => t
  end.

(** A settlement of an input of [this.map2(f, t2)]: [this] calls the
    continuations that the Task built inside [map2] handed to it, [t2] the
    ones that [ap] handed to it. *)
Definition map2_late (f : Val) (s : Side) (o : Outcome) : M Val :=
  match s with
  | This =>
      settle o
        (fun a => guardReject 0 on_reject a)
        (fun b =>
           guardResolve 0 cb01 on_resolve (setFunc 0) (VPar f 2 [b]))
  | That =>
      settle o (guardReject 0 on_reject)
        (guardResolve 0 cb01 on_resolve (setVal 0))
  end.

Definition map2_turn (f : Val) (t : Turn) (w : World) : World :=
  match t with
  | Late s o => snd (map2_late f s o w)
  | Tick => tick w
  end.

Definition map2_exec (f : Val) (bThis bThat : Behaviour) (late : list Turn)
  : World :=
  foldl (fun w turn => map2_turn f turn w)
    (snd (fork (_map2 (opaque 0 bThis) f (opaque 1 bThat))
            on_reject on_resolve empty_world)) late.

(** *** Forks in a world that is not empty *)

(** The world [W] followed by what a fork started in the empty world left:
    frames after the frames of [W], with the frames that the deferred
    procedures read renumbered, deferred procedures and calls after those
    of [W]. *)
Definition shift_thunk (n m : nat) (th : Thunk) : Thunk :=
  {| thunk_cleanup := thunk_cleanup th;
     thunk_frame :=
       match thunk_frame th with
       | InAp fr => InAp (n + fr)
       | InConcat fr => InConcat (m + fr)
       end |}.

Definition after (W w : World) : World :=
  {| apFrames := apFrames W ++ apFrames w;
     concatFrames := concatFrames W ++ concatFrames w;
     queue :=
       queue W
       ++ map (shift_thunk (length (apFrames W)) (length (concatFrames W)))
            (queue w);
     trace := trace W ++ trace w |}.

Definition moved {A} (W : World) (r : Res A * World) : Res A * World :=
  (fst r, after W (snd r)).

(** [k], run after [W], does what [k0] does. *)
Definition follows (W : World) (k k0 : Cont) : Prop :=
  forall x w, k x (after W w) = moved W (k0 x w).

(** A Task whose fork procedure, started after any world [W], does what it
    does when started without [W], and leaves [W] as it was. *)
Definition local (t : Task) : Prop :=
  forall W k1 k2 k1' k2',
    follows W k1 k1' ->
    follows W k2 k2' ->
    forall w, fork t k1 k2 (after W w) = moved W (fork t k1' k2' w).

(** ** Basic facts *)

Lemma call_cleanup_frame c : forall state w,
  exists r evs,
    call_cleanup c state w =
      (r, {| apFrames := apFrames w; concatFrames := concatFrames w;
             queue := queue w; trace := trace w ++ evs |})
    /\ List.filter is_cleanup evs = evs.
Proof.
  induction c as [|tag|c1 IH1 c2 IH2]; intros state w.
  - exists (Ok tt), []. rewrite app_nil_r. destruct w; auto.
  - exists (Ok tt), [CallCleanup tag state]. auto.
  - cbn [call_cleanup]. unfold bind, lift.
    destruct (index state 0) as [s0|e].
    2:{ exists (Throw e), []. rewrite app_nil_r. destruct w; auto. }
    destruct (IH1 s0 w) as (r1 & evs1 & E1 & F1). rewrite E1.
    destruct r1 as [[]|e].
    2:{ exists (Throw e), evs1. auto. }
    destruct (index state 1) as [s1|e].
    2:{ exists (Throw e), evs1. auto. }
    match goal with |- context [call_cleanup c2 s1 ?w1] =>
      destruct (IH2 s1 w1) as (r2 & evs2 & E2 & F2) end.
    rewrite E2. cbn [apFrames concatFrames queue trace].
    exists r2, (evs1 ++ evs2). rewrite <- app_assoc. split; [reflexivity|].
    rewrite List.filter_app, F1, F2. reflexivity.
Qed.

Lemma tick_frame w :
  exists evs,
    tick w = {| apFrames := apFrames w; concatFrames := concatFrames w;
                queue := tl (queue w); trace := trace w ++ evs |}
    /\ List.filter is_cleanup evs = evs
    /\ (queue w = [] -> evs = []).
Proof.
  unfold tick. destruct (queue w) as [|th rest] eqn:Q.
  - exists []. rewrite app_nil_r. destruct w; cbn in *; subst; auto.
  - unfold run_thunk.
    destruct (thunk_frame th); unfold bind, getAp, getConcat;
      match goal with |- context [call_cleanup ?c ?st ?w1] =>
        destruct (call_cleanup_frame c st w1) as (r & evs & E & F) end;
      rewrite E; exists evs; cbn; repeat split; auto; discriminate.
Qed.

(** What one settlement does to the frame of [ap]. *)
Lemma ap_late_fail f q t s a :
  ap_late 0 cb01 s (Fail a) (apW f q t) =
    if ApFrame.rejected f then (Ok VUndef, apW f q t)
    else (Ok VUndef,
          apW (ApFrame.set_rejected true f) q (t ++ [CallReject a])).
Proof. destruct f as [fn fl v vl [] st]; reflexivity. Qed.

Lemma ap_late_succeed f q t s b :
  ap_late 0 cb01 s (Succeed b) (apW f q t) =
    if ApFrame.rejected f then (Ok VUndef, apW f q t)
    else
      let f' := loaded s b f in
      if ApFrame.funcLoaded f' && ApFrame.valLoaded f' then
        match call (ApFrame.func f') [ApFrame.val f'] with
        | Ok r =>
            (Ok VUndef,
             apW f' (q ++ [ap_thunk])
               ((t ++ [CallDelayed]) ++ [CallResolve r]))
        | Throw e =>
            (Throw e, apW f' (q ++ [ap_thunk]) (t ++ [CallDelayed]))
        end
      else (Ok b, apW f' q t).
Proof.
  destruct f as [fn fl v vl [] st]; [reflexivity|].
  destruct s, fl, vl; cbn; unfold bind, lift; cbn;
    try reflexivity;
    match goal with |- context [call ?g ?a] => destruct (call g a) end;
    reflexivity.
Qed.

Lemma tick_apW f q t :
  exists evs,
    tick (apW f q t) = apW f (tl q) (t ++ evs)
    /\ List.filter is_cleanup evs = evs
    /\ (q = [] -> evs = []).
Proof. exact (tick_frame (apW f q t)). Qed.

Lemma allState_apW v f q t :
  snd (modifyAp 0 (ApFrame.set_allState v) (apW f q t)) =
    apW (ApFrame.set_allState v f) q t.
Proof. reflexivity. Qed.

Lemma settle_all_cons o os reject resolve w :
  settle_all (o :: os) reject resolve w =
    match settle o reject resolve w with
    | (Ok _, w1) => settle_all os reject resolve w1
    | (Throw e, w1) => (Throw e, w1)
    end.
Proof. reflexivity. Qed.

(** The fork procedure of [ap] on opaque inputs, step by step. *)
Lemma ap_fork_opaque bThis bThat :
  fork (_ap (opaque 0 bThis) (opaque 1 bThat)) on_reject on_resolve
    empty_world =
    match settle_all (sync bThis) (guardReject 0 on_reject)
            (guardResolve 0 cb01 on_resolve (ap_setter 0 This))
            (apW ApFrame.fresh [] []) with
    | (Throw e, w1) => (Throw e, w1)
    | (Ok _, w1) =>
        match settle_all (sync bThat) (guardReject 0 on_reject)
                (guardResolve 0 cb01 on_resolve (ap_setter 0 That)) w1 with
        | (Throw e, w2) => (Throw e, w2)
        | (Ok _, w2) =>
            (Ok (VArr [runState bThis; runState bThat]),
             snd (modifyAp 0
                    (ApFrame.set_allState
                       (VArr [runState bThis; runState bThat])) w2))
        end
    end.
Proof.
  cbn [_ap new_Task opaque fork cleanup]. unfold bind, allocAp, ret.
  cbn [empty_world apFrames concatFrames queue trace length app].
  fold cb01. unfold apW, ap_setter.
  destruct (settle_all (sync bThis) _ _ _) as [[[]|e1] w1]; [|reflexivity].
  destruct (settle_all (sync bThat) _ _ _) as [[[]|e2] w2]; reflexivity.
Qed.

(** ** Induction over the executions of [ap] *)

Section ApExecution.

(** [P h w]: the world [w] is reachable after the settlements [h] have
    been delivered.  [good] singles out the histories on which no
    continuation of [ap] throws. *)
Variable P : list (Side * Outcome) -> World -> Prop.
Variable good : list (Side * Outcome) -> Prop.

Hypothesis good_prefix : forall h e, good (h ++ [e]) -> good h.
Hypothesis P_alloc : P [] (apW ApFrame.fresh [] []).
Hypothesis P_late : forall h s o w,
  P h w ->
  P (h ++ [(s, o)]) (snd (ap_late 0 cb01 s o w))
  /\ (good (h ++ [(s, o)]) -> is_ok (fst (ap_late 0 cb01 s o w))).
Hypothesis P_tick : forall h w, P h w -> P h (tick w).
Hypothesis P_allState : forall h w v,
  P h w -> P h (snd (modifyAp 0 (ApFrame.set_allState v) w)).

Lemma good_prefix_app l : forall h, good (h ++ l) -> good h.
Proof.
  induction l as [|x l IH] using rev_ind; intros h G.
  - now rewrite app_nil_r in G.
  - rewrite app_assoc in G. eauto.
Qed.

Lemma settle_all_ind s os : forall h w,
  P h w ->
  exists h',
    h' `sublist_of` map (pair s) os
    /\ P (h ++ h')
         (snd (settle_all os (guardReject 0 on_reject)
                 (guardResolve 0 cb01 on_resolve (ap_setter 0 s)) w))
    /\ (good (h ++ map (pair s) os) ->
        h' = map (pair s) os
        /\ is_ok (fst (settle_all os (guardReject 0 on_reject)
                         (guardResolve 0 cb01 on_resolve (ap_setter 0 s))
                         w))).
Proof.
  induction os as [|o os IH]; intros h w Hw.
  - exists []. rewrite app_nil_r. cbn. auto.
  - destruct (P_late h s o w Hw) as [HP Hok].
    cbn [map]. rewrite !settle_all_cons.
    change (settle o (guardReject 0 on_reject)
              (guardResolve 0 cb01 on_resolve (ap_setter 0 s)) w)
      with (ap_late 0 cb01 s o w).
    destruct (ap_late 0 cb01 s o w) as [[v|e] w1]; cbn [fst snd] in *.
    + destruct (IH _ _ HP) as (h' & Hs & HP' & Hg).
      exists ((s, o) :: h'). split; [now constructor|].
      rewrite <- app_assoc in HP', Hg. cbn in HP', Hg.
      split; [exact HP'|]. intros G. destruct (Hg G) as [-> ?]. auto.
    + exists [(s, o)]. split.
      { constructor. apply sublist_nil_l. }
      split; [exact HP|]. intros G. exfalso. apply Hok.
      apply (good_prefix_app (map (pair s) os)).
      now rewrite <- app_assoc.
Qed.

Lemma late_ind late : forall h w,
  P h w ->
  P (h ++ lates late) (foldl (fun w turn => ap_turn 0 cb01 turn w) w late).
Proof.
  induction late as [|turn late IH]; intros h w Hw; cbn.
  - now rewrite app_nil_r.
  - destruct turn as [s o|]; cbn.
    + specialize (IH (h ++ [(s, o)])
                    (snd (ap_late 0 cb01 s o w)) (proj1 (P_late _ _ _ _ Hw))).
      now rewrite <- app_assoc in IH.
    + apply IH. now apply P_tick.
Qed.

Lemma ap_exec_ind bThis bThat late :
  exists h,
    h `sublist_of` history bThis bThat late
    /\ P h (ap_exec bThis bThat late)
    /\ (good (history bThis bThat late) -> h = history bThis bThat late).
Proof.
  unfold ap_exec, history. rewrite ap_fork_opaque.
  change (cleanup (_ap (opaque 0 bThis) (opaque 1 bThat))) with cb01.
  destruct (settle_all_ind This (sync bThis) [] _ P_alloc)
    as (h1 & S1 & P1 & G1).
  cbn [app] in P1, G1.
  destruct (settle_all (sync bThis) _ _ (apW ApFrame.fresh [] []))
    as [[[]|e1] w1]; cbn [fst snd] in *.
  - destruct (settle_all_ind That (sync bThat) h1 w1 P1)
      as (h2 & S2 & P2 & G2).
    destruct (settle_all (sync bThat) _ _ w1)
      as [[[]|e2] w2]; cbn [fst snd] in *.
    + pose proof (P_allState _ _
                    (VArr [runState bThis; runState bThat]) P2) as P3.
      exists ((h1 ++ h2) ++ lates late). split.
      { rewrite <- app_assoc. repeat apply sublist_app; auto. }
      split; [now apply late_ind|].
      intros G. rewrite <- app_assoc.
      assert (h1 = map (pair This) (sync bThis)) as ->.
      { apply G1. eapply good_prefix_app. exact G. }
      assert (h2 = map (pair That) (sync bThat)) as ->; [|reflexivity].
      apply G2. eapply good_prefix_app. rewrite <- app_assoc. exact G.
    + exists ((h1 ++ h2) ++ lates late). split.
      { rewrite <- app_assoc. repeat apply sublist_app; auto. }
      split; [now apply late_ind|].
      intros G. exfalso.
      assert (h1 = map (pair This) (sync bThis)) as ->.
      { apply G1. eapply good_prefix_app. exact G. }
      apply G2. eapply good_prefix_app. rewrite <- app_assoc. exact G.
  - exists (h1 ++ lates late). split.
    { apply sublist_app; [exact S1|].
      apply sublist_inserts_l. reflexivity. }
    split; [now apply late_ind|].
    intros G. exfalso. apply G1. eapply good_prefix_app. exact G.
Qed.

End ApExecution.

(** ** Histories *)

Lemma outs_app s h1 h2 : outs s (h1 ++ h2) = outs s h1 ++ outs s h2.
Proof. apply omap_app. Qed.

Lemma outs_snoc s s' o h :
  outs s (h ++ [(s', o)]) =
    if side_eqb s s' then outs s h ++ [o] else outs s h.
Proof.
  rewrite outs_app. cbn. destruct (side_eqb s s'); cbn; [reflexivity|].
  apply app_nil_r.
Qed.

Lemma outs_sublist s h h' :
  h `sublist_of` h' -> length (outs s h) <= length (outs s h').
Proof.
  unfold outs.
  induction 1 as [|e l1 l2 _ IH|e l1 l2 _ IH]; cbn; [lia| |];
    destruct (side_eqb s (fst e)); cbn; lia.
Qed.

Lemma phase_snoc h e : phase (h ++ [e]) = phase_step (phase h) e.
Proof. unfold phase. now rewrite foldl_app. Qed.

Lemma phase_settled p h :
  (forall gT gH, p <> Pending gT gH) -> foldl phase_step p h = p.
Proof.
  induction h as [|e h IH]; intros Hp; [reflexivity|]. cbn.
  destruct p; [now contradiction (Hp gotThis gotThat)| |]; cbn; auto.
Qed.

(** A failure that arrives while at most one side has succeeded. *)
Lemma phase_first_failure pre s a post :
  Forall is_success pre ->
  outs This pre = [] \/ outs That pre = [] ->
  phase (pre ++ (s, Fail a) :: post) = Failed a.
Proof.
  unfold phase. rewrite foldl_app.
  assert (forall gT gH,
    Forall is_success pre ->
    (gT = false /\ outs This pre = []) \/ (gH = false /\ outs That pre = []) ->
    exists gT' gH', foldl phase_step (Pending gT gH) pre = Pending gT' gH')
    as Hpre.
  { induction pre as [|[s' o] pre IH]; intros gT gH Hs Hside; [cbn; eauto|].
    inversion Hs as [|? ? Ho Hs']; subst.
    destruct o as [?|b]; [destruct Ho|].
    destruct s'; cbn in Hside |- *.
    - destruct Hside as [[_ ?]|[-> Ht]]; [discriminate|].
      apply IH; auto.
    - destruct Hside as [[-> Ht]|[_ ?]]; [|discriminate].
      apply IH; auto. }
  intros Hs Hside.
  destruct (Hpre false false Hs) as (gT' & gH' & ->).
  { destruct Hside; auto. }
  cbn. apply phase_settled. discriminate.
Qed.

Lemma filter_settlement_cleanup evs :
  List.filter is_cleanup evs = evs -> List.filter is_settlement evs = [].
Proof.
  induction evs as [|e evs IH]; [reflexivity|]. cbn.
  destruct e; cbn; intros H;
    try (exfalso;
         assert (length (List.filter is_cleanup evs) <= length evs)
           by apply List.filter_length_le;
         apply (f_equal (@length _)) in H; cbn in H; lia).
  injection H as H. auto.
Qed.

(** Closes the two parts of a step obligation once the step is computed:
    the invariant on a world of the right shape, and the absence of an
    exception on the histories where it is claimed. *)
Ltac step_done :=
  cbn [fst snd];
  split;
  [ eexists _, _, _; split; [reflexivity|]; cbn; repeat split; auto
  | first [ intros _; exact I
          | intros G; exfalso; apply G; reflexivity
          | exact I ] ].

(** ** [ap]: a failure before the join *)

Lemma fail_first_late h s o w :
  fail_first_inv h w ->
  fail_first_inv (h ++ [(s, o)]) (snd (ap_late 0 cb01 s o w))
  /\ (phase (h ++ [(s, o)]) <> Joined ->
      is_ok (fst (ap_late 0 cb01 s o w))).
Proof.
  intros (f & q & t & -> & H). unfold fail_first_inv.
  rewrite phase_snoc.
  destruct o as [a|b]; [rewrite ap_late_fail|rewrite ap_late_succeed].
  - destruct (phase h) as [gT gH|a'|]; cbn [phase_step fst snd].
    + destruct H as (Hr & Hf & Hv & -> & ->). rewrite Hr. step_done.
    + destruct H as (Hr & -> & ->). rewrite Hr. step_done.
    + destruct (ApFrame.rejected f); step_done.
  - destruct (phase h) as [gT gH|a'|]; cbn [phase_step fst snd].
    + destruct H as (Hr & Hf & Hv & -> & ->). rewrite Hr.
      destruct f as [fn fl v vl rj st]; cbn in Hr, Hf, Hv; subst.
      destruct s, gT, gH; cbn; try destruct (call _ _); step_done.
    + destruct H as (Hr & -> & ->). rewrite Hr. step_done.
    + destruct (ApFrame.rejected f); [step_done|]. cbn zeta.
      destruct (_ && _); [destruct (call _ _)|]; step_done.
Qed.

Lemma fail_first_tick h w : fail_first_inv h w -> fail_first_inv h (tick w).
Proof.
  intros (f & q & t & -> & H).
  destruct (tick_apW f q t) as (evs & -> & _ & Hq).
  exists f, (tl q), (t ++ evs). split; [reflexivity|].
  destruct (phase h); [destruct H as (? & ? & ? & -> & ->)
                      |destruct H as (? & -> & ->)|exact I];
    rewrite (Hq eq_refl); cbn; auto.
Qed.

Lemma fail_first_allState h w v :
  fail_first_inv h w ->
  fail_first_inv h (snd (modifyAp 0 (ApFrame.set_allState v) w)).
Proof.
  intros (f & q & t & -> & H). rewrite allState_apW.
  eexists _, _, _. split; [reflexivity|].
  destruct (phase h); cbn; auto.
Qed.

(** The whole trace of an execution in which a failure arrives before both
    sides have succeeded: one call, of the failure continuation. *)
Lemma ap_fail_first_trace bThis bThat late pre s a post :
  history bThis bThat late = pre ++ (s, Fail a) :: post ->
  Forall is_success pre ->
  outs This pre = [] \/ outs That pre = [] ->
  trace (ap_exec bThis bThat late) = [CallReject a]
  /\ queue (ap_exec bThis bThat late) = [].
Proof.
  intros Hh Hs Hside.
  pose proof (phase_first_failure pre s a post Hs Hside) as Hph.
  rewrite <- Hh in Hph.
  destruct (ap_exec_ind fail_first_inv (fun h => phase h <> Joined))
    with (bThis := bThis) (bThat := bThat) (late := late)
    as (h & _ & HP & Hg).
  - intros h0 e. rewrite phase_snoc. intros G E. apply G. now rewrite E.
  - exists ApFrame.fresh, [], []. cbn. repeat split.
  - apply fail_first_late.
  - apply fail_first_tick.
  - apply fail_first_allState.
  - rewrite Hg in HP by (rewrite Hph; discriminate).
    destruct HP as (f & q & t & -> & H). rewrite Hph in H.
    now destruct H as (_ & -> & ->).
Qed.

(** C2: in [ap], a failure that arrives while at most one side has
    succeeded is forwarded to the failure continuation, and it is the only
    settlement of the execution: whatever either input reports afterwards
    (successes or failures, in the same turn or in later ones) is
    suppressed.  For two inputs that fail synchronously with [e1] and [e2],
    the composed Task fails with [e1] and [e2] is never delivered. *)
Theorem ap_first_failure_wins :
  (forall bThis bThat late pre s a post,
     history bThis bThat late = pre ++ (s, Fail a) :: post ->
     Forall is_success pre ->
     outs This pre = [] \/ outs That pre = [] ->
     settlements (ap_exec bThis bThat late) = [CallReject a])
  /\ (forall e1 e2,
        settlements
          (snd (fork (_ap (_rejected e1) (_rejected e2))
                  on_reject on_resolve empty_world)) = [CallReject e1])
  /\ (forall e1 e2 s1 s2 late,
        settlements
          (ap_exec {| sync := [Fail e1]; runState := s1 |}
                   {| sync := [Fail e2]; runState := s2 |} late)
        = [CallReject e1]).
Proof.
  assert (forall bThis bThat late pre s a post,
     history bThis bThat late = pre ++ (s, Fail a) :: post ->
     Forall is_success pre ->
     outs This pre = [] \/ outs That pre = [] ->
     settlements (ap_exec bThis bThat late) = [CallReject a]) as Hgen.
  { intros bThis bThat late pre s a post Hh Hs Hside. unfold settlements.
    now rewrite (proj1 (ap_fail_first_trace _ _ _ _ _ _ _ Hh Hs Hside)). }
  split; [exact Hgen|]. split; [reflexivity|].
  intros e1 e2 s1 s2 late.
  apply (Hgen _ _ late [] This e1 ((That, Fail e2) :: lates late));
    [reflexivity|constructor|now left].
Qed.

(** C7: in [ap], when an input fails before both have succeeded, nothing
    is ever handed to [delayed] and no cleanup procedure of either input is
    called, in the turn of the failure or in any later one: the run-states
    are abandoned. *)
Theorem ap_failure_skips_cleanup bThis bThat late pre s a post :
  history bThis bThat late = pre ++ (s, Fail a) :: post ->
  Forall is_success pre ->
  outs This pre = [] \/ outs That pre = [] ->
  schedulings (ap_exec bThis bThat late) = []
  /\ cleanups (ap_exec bThis bThat late) = []
  /\ queue (ap_exec bThis bThat late) = [].
Proof.
  intros Hh Hs Hside. unfold schedulings, cleanups.
  destruct (ap_fail_first_trace _ _ _ _ _ _ _ Hh Hs Hside) as [-> ->].
  repeat split.
Qed.

(** ** [ap]: both inputs succeed *)

Lemma at_most_one_snoc {A} (x o : A) l :
  at_most_one x (l ++ [o]) -> l = [] /\ o = x.
Proof.
  intros [H|H].
  - now destruct l.
  - destruct l as [|y [|z l]]; cbn in H; [now injection H| |]; discriminate.
Qed.

Lemma at_most_one_nil {A} (x : A) : at_most_one x [].
Proof. now left. Qed.

Section ApSuccess.

Variables fv vv r : Val.
Hypothesis call_ok : call fv [vv] = Ok r.

Lemma success_good_prefix h e : success_good fv vv (h ++ [e]) -> success_good fv vv h.
Proof.
  destruct e as [s o]. unfold success_good. rewrite !outs_snoc.
  intros [G1 G2]. split.
  - destruct (side_eqb This s); [|exact G1].
    apply at_most_one_snoc in G1 as [-> _]. apply at_most_one_nil.
  - destruct (side_eqb That s); [|exact G2].
    apply at_most_one_snoc in G2 as [-> _]. apply at_most_one_nil.
Qed.

Lemma success_good_snoc h s o :
  success_good fv vv (h ++ [(s, o)]) ->
  success_good fv vv h
  /\ outs s h = []
  /\ o = Succeed (match s with This => fv | That => vv end).
Proof.
  intros G. split; [eapply success_good_prefix; eauto|].
  destruct G as [G1 G2]. rewrite outs_snoc in G1, G2.
  destruct s; cbn in G1, G2.
  - now apply at_most_one_snoc in G1.
  - now apply at_most_one_snoc in G2.
Qed.

Lemma success_late h s o w :
  success_inv fv vv r h w ->
  success_inv fv vv r (h ++ [(s, o)]) (snd (ap_late 0 cb01 s o w))
  /\ (success_good fv vv (h ++ [(s, o)]) ->
      is_ok (fst (ap_late 0 cb01 s o w))).
Proof.
  intros (f & q & t & -> & H). unfold success_inv.
  destruct o as [a|b]; [rewrite ap_late_fail|rewrite ap_late_succeed].
  - destruct (ApFrame.rejected f); cbn [fst snd];
      (split; [|intros _; exact I]);
      eexists _, _, _; (split; [reflexivity|]);
      intros G; apply success_good_snoc in G as (_ & _ & G);
      discriminate G.
  - destruct (ApFrame.rejected f) eqn:Hr; cbn [fst snd].
    { split; [|intros _; exact I].
      eexists _, _, _. split; [reflexivity|].
      intros G. apply success_good_snoc in G as (G & _ & _).
      destruct (H G) as (Hr' & _). congruence. }
    cbn zeta.
    assert (success_good fv vv (h ++ [(s, Succeed b)]) ->
            ApFrame.funcLoaded f = nonempty (outs This h)
            /\ ApFrame.valLoaded f = nonempty (outs That h)
            /\ (ApFrame.funcLoaded f = true -> ApFrame.func f = fv)
            /\ (ApFrame.valLoaded f = true -> ApFrame.val f = vv)
            /\ List.filter is_settlement t =
                 (if ApFrame.funcLoaded f && ApFrame.valLoaded f
                  then [CallResolve r] else [])
            /\ outs s h = []
            /\ b = match s with This => fv | That => vv end) as Hfacts.
    { intros G. apply success_good_snoc in G as (G & Hs & Hb).
      destruct (H G) as (_ & ? & ? & ? & ? & ?).
      injection Hb as ->. repeat split; auto. }
    clear H.
    destruct f as [fn fl v vl rj st]; cbn in Hr, Hfacts; subst rj.
    destruct s; cbn [loaded ApFrame.set_func ApFrame.set_funcLoaded
                     ApFrame.set_val ApFrame.set_valLoaded
                     ApFrame.func ApFrame.funcLoaded ApFrame.val
                     ApFrame.valLoaded ApFrame.rejected ApFrame.allState
                     andb].
    + destruct vl.
      * destruct (call b [v]) as [r'|e] eqn:Hc; cbn [fst snd].
        -- split; [|intros _; exact I].
           eexists _, _, _. split; [reflexivity|]. intros G.
           destruct (Hfacts G) as (Hf & Hv & Hfn & Hvv & Ht & Hs & ->).
           rewrite !outs_snoc. cbn [side_eqb]. rewrite Hs in *.
           cbn in Hf. subst fl. cbn in Ht.
           rewrite (Hvv eq_refl) in Hc. rewrite call_ok in Hc.
           injection Hc as <-.
           cbn. rewrite !List.filter_app, Ht. cbn.
           repeat split; auto.
        -- split.
           ++ eexists _, _, _. split; [reflexivity|]. intros G.
              destruct (Hfacts G) as (Hf & Hv & Hfn & Hvv & Ht & Hs & ->).
              rewrite (Hvv eq_refl) in Hc. rewrite call_ok in Hc.
              discriminate.
           ++ intros G.
              destruct (Hfacts G) as (Hf & Hv & Hfn & Hvv & Ht & Hs & ->).
              rewrite (Hvv eq_refl) in Hc. rewrite call_ok in Hc.
              discriminate.
      * cbn [fst snd]. split; [|intros _; exact I].
        eexists _, _, _. split; [reflexivity|]. intros G.
        destruct (Hfacts G) as (Hf & Hv & Hfn & Hvv & Ht & Hs & ->).
        rewrite !outs_snoc. cbn [side_eqb]. rewrite Hs in *.
        cbn in Hf. subst fl. cbn in Ht. cbn.
        repeat split; auto; try discriminate.
    + destruct fl; cbn [andb].
      * destruct (call fn [b]) as [r'|e] eqn:Hc; cbn [fst snd].
        -- split; [|intros _; exact I].
           eexists _, _, _. split; [reflexivity|]. intros G.
           destruct (Hfacts G) as (Hf & Hv & Hfn & Hvv & Ht & Hs & ->).
           rewrite !outs_snoc. cbn [side_eqb]. rewrite Hs in *.
           cbn in Hv. subst vl. cbn in Ht.
           rewrite (Hfn eq_refl) in Hc. rewrite call_ok in Hc.
           injection Hc as <-.
           cbn. rewrite !List.filter_app, Ht. cbn.
           repeat split; auto.
        -- split.
           ++ eexists _, _, _. split; [reflexivity|]. intros G.
              destruct (Hfacts G) as (Hf & Hv & Hfn & Hvv & Ht & Hs & ->).
              rewrite (Hfn eq_refl) in Hc. rewrite call_ok in Hc.
              discriminate.
           ++ intros G.
              destruct (Hfacts G) as (Hf & Hv & Hfn & Hvv & Ht & Hs & ->).
              rewrite (Hfn eq_refl) in Hc. rewrite call_ok in Hc.
              discriminate.
      * cbn [fst snd]. split; [|intros _; exact I].
        eexists _, _, _. split; [reflexivity|]. intros G.
        destruct (Hfacts G) as (Hf & Hv & Hfn & Hvv & Ht & Hs & ->).
        rewrite !outs_snoc. cbn [side_eqb]. rewrite Hs in *.
        cbn in Hv. subst vl. cbn in Ht. cbn.
        repeat split; auto; try discriminate.
Qed.

Lemma success_tick h w : success_inv fv vv r h w -> success_inv fv vv r h (tick w).
Proof.
  intros (f & q & t & -> & H).
  destruct (tick_apW f q t) as (evs & -> & Hevs & _).
  eexists _, _, _. split; [reflexivity|]. intros G.
  rewrite List.filter_app, (filter_settlement_cleanup _ Hevs), app_nil_r.
  auto.
Qed.

Lemma success_allState h w v :
  success_inv fv vv r h w ->
  success_inv fv vv r h (snd (modifyAp 0 (ApFrame.set_allState v) w)).
Proof.
  intros (f & q & t & -> & H). rewrite allState_apW.
  eexists _, _, _. split; [reflexivity|]. intros G.
  destruct f; cbn in *. auto.
Qed.

Lemma ap_success_settlements bThis bThat late :
  success_good fv vv (history bThis bThat late) ->
  settlements (ap_exec bThis bThat late) =
    if nonempty (outs This (history bThis bThat late))
       && nonempty (outs That (history bThis bThat late))
    then [CallResolve r] else [].
Proof.
  intros G.
  destruct (ap_exec_ind (success_inv fv vv r) (success_good fv vv)
              success_good_prefix)
    with (bThis := bThis) (bThat := bThat) (late := late)
    as (h & _ & HP & Hg).
  - exists ApFrame.fresh, [], []. split; [reflexivity|]. intros _.
    cbn. repeat split; discriminate.
  - apply success_late.
  - apply success_tick.
  - apply success_allState.
  - rewrite (Hg G) in HP. destruct HP as (f & q & t & E & H).
    destruct (H G) as (_ & <- & <- & _ & _ & Ht).
    unfold settlements. rewrite E. exact Ht.
Qed.

End ApSuccess.

(** C1: when [this] succeeds with [fv] and [that] succeeds with [vv], each
    once, in the call of their fork procedures or in a later turn and in
    either order, [this.ap(that)] resolves with [fv(vv)] and settles in no
    other way; nothing is delivered as long as one of the two successes has
    not arrived.  [Task.of(x => x + 1).ap(Task.of(41))] resolves to 42. *)
Theorem ap_joins_successes :
  (forall fv vv r bThis bThat late,
     call fv [vv] = Ok r ->
     at_most_one (Succeed fv) (outs This (history bThis bThat late)) ->
     at_most_one (Succeed vv) (outs That (history bThis bThat late)) ->
     settlements (ap_exec bThis bThat late) =
       if nonempty (outs This (history bThis bThat late))
          && nonempty (outs That (history bThis bThat late))
       then [CallResolve r] else [])
  /\ (forall fv vv r,
        call fv [vv] = Ok r ->
        settlements
          (snd (fork (_ap (_of fv) (_of vv)) on_reject on_resolve
                  empty_world)) = [CallResolve r])
  /\ (forall code env,
        (forall n, native code env [VNum n] = Ok (VNum (n + 1))) ->
        settlements
          (snd (fork (_ap (_of (VFun code env)) (_of (VNum 41)))
                  on_reject on_resolve empty_world))
        = [CallResolve (VNum 42)]).
Proof.
  assert (forall fv vv r,
        call fv [vv] = Ok r ->
        settlements
          (snd (fork (_ap (_of fv) (_of vv)) on_reject on_resolve
                  empty_world)) = [CallResolve r]) as Hsync.
  { intros fv vv r Hc. cbn. unfold bind, lift. cbn. rewrite Hc. reflexivity. }
  split; [|split; [exact Hsync|]].
  - intros fv vv r bThis bThat late Hc G1 G2.
    apply (ap_success_settlements fv vv r Hc). now split.
  - intros code env Hn. apply Hsync. cbn. apply Hn.
Qed.

(** ** Induction over the executions of [concat] *)

Lemma concat_late_step c q t o :
  concat_late 0 cb01 o (concatW c q t) =
    if ConcatFrame.done c then (Ok VUndef, concatW c q t)
    else (Ok VUndef,
          concatW (ConcatFrame.set_done true c) (q ++ [concat_thunk])
            ((t ++ [CallDelayed]) ++ [event_of o])).
Proof. destruct c as [[] st], o; reflexivity. Qed.

(** The continuations that [concat] hands out never throw. *)
Lemma concat_late_ok o w : is_ok (fst (concat_late 0 cb01 o w)).
Proof.
  unfold concat_late, guard, bind, getConcat.
  destruct o; cbn; destruct (ConcatFrame.done _); exact I.
Qed.

Lemma tick_concatW c q t :
  exists evs,
    tick (concatW c q t) = concatW c (tl q) (t ++ evs)
    /\ List.filter is_cleanup evs = evs
    /\ (q = [] -> evs = []).
Proof. exact (tick_frame (concatW c q t)). Qed.

Lemma allState_concatW v c q t :
  snd (modifyConcat 0 (ConcatFrame.set_allState v) (concatW c q t)) =
    concatW (ConcatFrame.set_allState v c) q t.
Proof. reflexivity. Qed.

Lemma concat_fork_opaque bThis bThat :
  fork (_concat (opaque 0 bThis) (opaque 1 bThat)) on_reject on_resolve
    empty_world =
    match settle_all (sync bThis) (guard 0 cb01 on_reject)
            (guard 0 cb01 on_resolve) (concatW ConcatFrame.fresh [] []) with
    | (Throw e, w1) => (Throw e, w1)
    | (Ok _, w1) =>
        match settle_all (sync bThat) (guard 0 cb01 on_reject)
                (guard 0 cb01 on_resolve) w1 with
        | (Throw e, w2) => (Throw e, w2)
        | (Ok _, w2) =>
            (Ok (VArr [runState bThis; runState bThat]),
             snd (modifyConcat 0
                    (ConcatFrame.set_allState
                       (VArr [runState bThis; runState bThat])) w2))
        end
    end.
Proof.
  cbn [_concat new_Task opaque fork cleanup]. unfold bind, allocConcat, ret.
  cbn [empty_world apFrames concatFrames queue trace length app].
  fold cb01. unfold concatW.
  destruct (settle_all (sync bThis) _ _ _) as [[[]|e1] w1]; [|reflexivity].
  destruct (settle_all (sync bThat) _ _ _) as [[[]|e2] w2]; reflexivity.
Qed.

Section ConcatExecution.

Variable P : list (Side * Outcome) -> World -> Prop.

Hypothesis P_alloc : P [] (concatW ConcatFrame.fresh [] []).
Hypothesis P_late : forall h s o w,
  P h w -> P (h ++ [(s, o)]) (snd (concat_late 0 cb01 o w)).
Hypothesis P_tick : forall h w, P h w -> P h (tick w).
Hypothesis P_allState : forall h w v,
  P h w -> P h (snd (modifyConcat 0 (ConcatFrame.set_allState v) w)).

Lemma concat_settle_all_ind s os : forall h w,
  P h w ->
  is_ok (fst (settle_all os (guard 0 cb01 on_reject)
                (guard 0 cb01 on_resolve) w))
  /\ P (h ++ map (pair s) os)
       (snd (settle_all os (guard 0 cb01 on_reject)
               (guard 0 cb01 on_resolve) w)).
Proof.
  induction os as [|o os IH]; intros h w Hw.
  - rewrite app_nil_r. cbn. auto.
  - cbn [map]. rewrite !settle_all_cons.
    pose proof (concat_late_ok o w) as Hok.
    pose proof (P_late h s o w Hw) as HP.
    change (settle o (guard 0 cb01 on_reject) (guard 0 cb01 on_resolve) w)
      with (concat_late 0 cb01 o w).
    destruct (concat_late 0 cb01 o w) as [[v|e] w1]; cbn [fst snd] in *;
      [|destruct Hok].
    specialize (IH _ _ HP). now rewrite <- app_assoc in IH.
Qed.

Lemma concat_late_ind late : forall h w,
  P h w ->
  P (h ++ lates late)
    (foldl (fun w turn => concat_turn 0 cb01 turn w) w late).
Proof.
  induction late as [|turn late IH]; intros h w Hw; cbn.
  - now rewrite app_nil_r.
  - destruct turn as [s o|]; cbn.
    + specialize (IH (h ++ [(s, o)])
                    (snd (concat_late 0 cb01 o w)) (P_late _ s _ _ Hw)).
      now rewrite <- app_assoc in IH.
    + apply IH. now apply P_tick.
Qed.

Lemma concat_exec_ind bThis bThat late :
  is_ok (fst (fork (_concat (opaque 0 bThis) (opaque 1 bThat))
                on_reject on_resolve empty_world))
  /\ P (history bThis bThat late) (concat_exec bThis bThat late).
Proof.
  unfold concat_exec, history. rewrite concat_fork_opaque.
  change (cleanup (_concat (opaque 0 bThis) (opaque 1 bThat))) with cb01.
  destruct (concat_settle_all_ind This (sync bThis) [] _ P_alloc)
    as (O1 & P1).
  cbn [app] in P1.
  destruct (settle_all (sync bThis) _ _ (concatW ConcatFrame.fresh [] []))
    as [[[]|e1] w1]; cbn [fst snd] in *; [|destruct O1].
  destruct (concat_settle_all_ind That (sync bThat) _ w1 P1) as (O2 & P2).
  destruct (settle_all (sync bThat) _ _ w1)
    as [[[]|e2] w2]; cbn [fst snd] in *; [|destruct O2].
  split; [exact I|].
  rewrite app_assoc. apply concat_late_ind. now apply P_allState.
Qed.

End ConcatExecution.

(** ** [concat]: the race *)

Lemma race_late h s o w :
  race_inv h w -> race_inv (h ++ [(s, o)]) (snd (concat_late 0 cb01 o w)).
Proof.
  intros (c & q & t & -> & Hd & Ht). rewrite concat_late_step.
  destruct c as [d st]. cbn in Hd. subst d.
  destruct h as [|e h]; cbn [nonempty ConcatFrame.done snd];
    eexists _, _, _; (split; [reflexivity|]); cbn; auto.
  split; [reflexivity|].
  rewrite !List.filter_app, Ht. now destruct o.
Qed.

Lemma race_tick h w : race_inv h w -> race_inv h (tick w).
Proof.
  intros (c & q & t & -> & Hd & Ht).
  destruct (tick_concatW c q t) as (evs & -> & Hevs & _).
  eexists _, _, _. split; [reflexivity|]. split; [exact Hd|].
  now rewrite List.filter_app, (filter_settlement_cleanup _ Hevs), app_nil_r.
Qed.

Lemma race_allState h w v :
  race_inv h w ->
  race_inv h (snd (modifyConcat 0 (ConcatFrame.set_allState v) w)).
Proof.
  intros (c & q & t & -> & Hd & Ht). rewrite allState_concatW.
  eexists _, _, _. split; [reflexivity|]. now destruct c.
Qed.

Lemma concat_settlements bThis bThat late :
  settlements (concat_exec bThis bThat late) =
    first_settlement (history bThis bThat late).
Proof.
  destruct (concat_exec_ind race_inv) with (bThis := bThis)
    (bThat := bThat) (late := late) as (_ & c & q & t & E & _ & Ht).
  - exists ConcatFrame.fresh, [], []. repeat split.
  - apply race_late.
  - apply race_tick.
  - apply race_allState.
  - unfold settlements. now rewrite E.
Qed.

(** C5: [a.concat(b)] forks [a], then [b], and its settlements are the
    first settlement of the history alone, failure or success: every later
    call of a continuation by either side is ignored.  A Task that resolves
    synchronously to "fast" raced against one that never settles resolves
    to "fast"; of two Tasks that resolve synchronously, the one forked
    first wins. *)
Theorem concat_first_settlement_wins :
  (forall bThis bThat late,
     settlements (concat_exec bThis bThat late) =
       first_settlement (history bThis bThat late))
  /\ settlements
       (snd (fork (_concat (_of (VStr "fast")) _empty) on_reject on_resolve
               empty_world)) = [CallResolve (VStr "fast")]
  /\ (forall a b,
        settlements
          (snd (fork (_concat (_of a) (_of b)) on_reject on_resolve
                  empty_world)) = [CallResolve a]).
Proof.
  split; [exact concat_settlements|]. split; reflexivity.
Qed.

(** ** [concat]: cleanup *)

Lemma tick_concat_thunk c t :
  exists evs,
    tick (concatW c [concat_thunk] t) = concatW c [] (t ++ evs)
    /\ (evs = [] \/ exists x y, evs = [CallCleanup 0 x; CallCleanup 1 y]).
Proof.
  destruct c as [d st].
  destruct st; cbn;
    first [ exists []; rewrite app_nil_r; split; [reflexivity|now left]
          | eexists [_; _]; rewrite <- app_assoc; split;
            [reflexivity|right; eauto] ].
Qed.

Lemma once_late h s o w :
  once_inv h w -> once_inv (h ++ [(s, o)]) (snd (concat_late 0 cb01 o w)).
Proof.
  intros (c & q & t & -> & H). rewrite concat_late_step.
  destruct H as [(Hd & -> & ->)|(Hd & H)]; rewrite Hd; cbn [snd];
    eexists _, _, _; (split; [reflexivity|]).
  - right. split; [reflexivity|]. exists o, []. split; [reflexivity|].
    now left.
  - right. auto.
Qed.

Lemma once_tick h w : once_inv h w -> once_inv h (tick w).
Proof.
  intros (c & q & t & -> & H).
  destruct H as [(Hd & -> & ->)|(Hd & o & evs & -> & H)].
  - exists c, [], []. split; [reflexivity|]. now left.
  - destruct H as [[-> ->]|[-> H]].
    + destruct (tick_concat_thunk c ([CallDelayed; event_of o] ++ []))
        as (evs & -> & Hevs).
      eexists _, _, _. split; [reflexivity|]. right. split; [exact Hd|].
      exists o, evs. split; [now rewrite app_nil_r|]. now right.
    + exists c, [], ([CallDelayed; event_of o] ++ evs).
      split; [reflexivity|]. right. split; [exact Hd|].
      exists o, evs. split; [reflexivity|]. now right.
Qed.

Lemma once_allState h w v :
  once_inv h w ->
  once_inv h (snd (modifyConcat 0 (ConcatFrame.set_allState v) w)).
Proof.
  intros (c & q & t & -> & H). rewrite allState_concatW.
  eexists _, _, _. split; [reflexivity|]. now destruct c.
Qed.

(** C10: in [concat], whatever the two inputs do with their continuations,
    [delayed] is called at most once per fork invocation, so at most one
    cleanup of the pair of run-states is pending, and each input's cleanup
    procedure is called at most once ([this]'s, then [that]'s). *)
Theorem concat_cleanup_scheduled_once bThis bThat late :
  length (schedulings (concat_exec bThis bThat late)) <= 1
  /\ length (queue (concat_exec bThis bThat late)) <= 1
  /\ (cleanups (concat_exec bThis bThat late) = []
      \/ exists x y,
           cleanups (concat_exec bThis bThat late) =
             [CallCleanup 0 x; CallCleanup 1 y]).
Proof.
  destruct (concat_exec_ind once_inv) with (bThis := bThis)
    (bThat := bThat) (late := late) as (_ & c & q & t & E & H).
  - exists ConcatFrame.fresh, [], []. split; [reflexivity|]. now left.
  - apply once_late.
  - apply once_tick.
  - apply once_allState.
  - unfold schedulings, cleanups. rewrite E. cbn [trace queue concatW].
    destruct H as [(_ & -> & ->)|(_ & o & evs & -> & H)].
    { cbn. repeat split; auto. }
    destruct H as [[-> ->]|[-> [->|(x & y & ->)]]];
      destruct o; cbn; repeat split; auto; right; eauto.
Qed.

(** ** [ap]: what the [rejected] latch guards *)

Lemma latch_late h s o w :
  latch_inv h w ->
  latch_inv (h ++ [(s, o)]) (snd (ap_late 0 cb01 s o w))
  /\ (False -> is_ok (fst (ap_late 0 cb01 s o w))).
Proof.
  intros (f & q & t & -> & rs & tl & Ht & H).
  split; [|intros []].
  destruct o as [a|b]; [rewrite ap_late_fail|rewrite ap_late_succeed].
  - destruct H as [[Hr ->]|[Hr Htl]]; rewrite Hr; cbn [snd];
      eexists _, _, _; (split; [reflexivity|]).
    + exists rs, [CallReject a]. rewrite List.filter_app, Ht, app_nil_r.
      split; [reflexivity|]. right. split; [reflexivity|]. eauto.
    + exists rs, tl. split; [exact Ht|]. now right.
  - destruct H as [[Hr ->]|[Hr Htl]]; rewrite Hr; cbn [snd].
    2:{ eexists _, _, _. split; [reflexivity|].
        exists rs, tl. split; [exact Ht|]. now right. }
    cbn zeta. rewrite app_nil_r in Ht.
    assert (ApFrame.rejected (loaded s b f) = false) as Hr'.
    { destruct f, s; exact Hr. }
    destruct (_ && _); [destruct (call _ _) as [r|e]|]; cbn [snd];
      eexists _, _, _; (split; [reflexivity|]).
    + exists (rs ++ [r]), []. rewrite !List.filter_app, Ht, map_app.
      cbn. rewrite !app_nil_r. split; [reflexivity|]. now left.
    + exists rs, []. rewrite !List.filter_app, Ht. cbn.
      split; [reflexivity|]. now left.
    + exists rs, []. rewrite Ht, app_nil_r. split; [reflexivity|]. now left.
Qed.

Lemma latch_tick h w : latch_inv h w -> latch_inv h (tick w).
Proof.
  intros (f & q & t & -> & rs & tl & Ht & H).
  destruct (tick_apW f q t) as (evs & -> & Hevs & _).
  eexists _, _, _. split; [reflexivity|]. exists rs, tl.
  now rewrite List.filter_app, (filter_settlement_cleanup _ Hevs), app_nil_r.
Qed.

Lemma latch_allState h w v :
  latch_inv h w ->
  latch_inv h (snd (modifyAp 0 (ApFrame.set_allState v) w)).
Proof.
  intros (f & q & t & -> & rs & tl & Ht & H). rewrite allState_apW.
  eexists _, _, _. split; [reflexivity|]. exists rs, tl. now destruct f.
Qed.

Lemma ap_failure_latched bThis bThat late :
  exists rs tl,
    settlements (ap_exec bThis bThat late) = map CallResolve rs ++ tl
    /\ (tl = [] \/ exists a, tl = [CallReject a]).
Proof.
  destruct (ap_exec_ind latch_inv (fun _ => False))
    with (bThis := bThis) (bThat := bThat) (late := late)
    as (h & _ & (f & q & t & E & rs & tl & Ht & H) & _).
  - auto.
  - exists ApFrame.fresh, [], []. split; [reflexivity|].
    exists [], []. split; [reflexivity|]. now left.
  - apply latch_late.
  - apply latch_tick.
  - apply latch_allState.
  - exists rs, tl. unfold settlements. rewrite E. split; [exact Ht|].
    destruct H as [[_ ->]|[_ ?]]; auto.
Qed.

(** ** [ap]: one settlement as long as nothing follows the join *)

Section ApExecutionCut.

(** [P h w] as above.  [bad] holds of the histories whose last delivery may
    have thrown: what the fork procedure of an input had left to deliver in
    that call is then skipped. *)
Variable P : list (Side * Outcome) -> World -> Prop.
Variable bad : list (Side * Outcome) -> Prop.

Hypothesis P_alloc : P [] (apW ApFrame.fresh [] []).
Hypothesis P_late : forall h s o w,
  P h w ->
  P (h ++ [(s, o)]) (snd (ap_late 0 cb01 s o w))
  /\ (is_ok (fst (ap_late 0 cb01 s o w)) \/ bad (h ++ [(s, o)])).
Hypothesis P_tick : forall h w, P h w -> P h (tick w).
Hypothesis P_allState : forall h w v,
  P h w -> P h (snd (modifyAp 0 (ApFrame.set_allState v) w)).

Lemma settle_all_cut s os : forall h w,
  P h w ->
  exists h' post,
    map (pair s) os = h' ++ post
    /\ P (h ++ h')
         (snd (settle_all os (guardReject 0 on_reject)
                 (guardResolve 0 cb01 on_resolve (ap_setter 0 s)) w))
    /\ match fst (settle_all os (guardReject 0 on_reject)
                    (guardResolve 0 cb01 on_resolve (ap_setter 0 s)) w) with
       | Ok _ => post = []
       | Throw _ => bad (h ++ h')
       end.
Proof.
  induction os as [|o os IH]; intros h w Hw.
  - exists [], []. cbn. rewrite app_nil_r. auto.
  - destruct (P_late h s o w Hw) as [HP Hok].
    cbn [map]. rewrite !settle_all_cons.
    change (settle o (guardReject 0 on_reject)
              (guardResolve 0 cb01 on_resolve (ap_setter 0 s)) w)
      with (ap_late 0 cb01 s o w).
    destruct (ap_late 0 cb01 s o w) as [[v|e] w1]; cbn [fst snd] in *.
    + destruct (IH _ _ HP) as (h' & post & E & HP' & Hm).
      exists ((s, o) :: h'), post.
      rewrite <- app_assoc in HP', Hm. cbn [app] in HP', Hm |- *.
      split; [now rewrite E|]. auto.
    + exists [(s, o)], (map (pair s) os). split; [reflexivity|].
      split; [exact HP|]. now destruct Hok.
Qed.

Lemma late_cut late : forall h w,
  P h w ->
  P (h ++ lates late) (foldl (fun w turn => ap_turn 0 cb01 turn w) w late).
Proof.
  induction late as [|turn late IH]; intros h w Hw; cbn.
  - now rewrite app_nil_r.
  - destruct turn as [s o|]; cbn.
    + specialize (IH (h ++ [(s, o)])
                    (snd (ap_late 0 cb01 s o w)) (proj1 (P_late _ _ _ _ Hw))).
      now rewrite <- app_assoc in IH.
    + apply IH. now apply P_tick.
Qed.

(** The settlements that were delivered are the whole history, unless a
    part of it follows a delivery that may have thrown. *)
Lemma ap_exec_cut bThis bThat late :
  exists h,
    P h (ap_exec bThis bThat late)
    /\ (h = history bThis bThat late
        \/ exists pre e post,
             history bThis bThat late = pre ++ e :: post /\ bad pre).
Proof.
  unfold ap_exec, history. rewrite ap_fork_opaque.
  change (cleanup (_ap (opaque 0 bThis) (opaque 1 bThat))) with cb01.
  destruct (settle_all_cut This (sync bThis) [] _ P_alloc)
    as (h1 & post1 & E1 & P1 & M1).
  cbn [app] in P1, M1. rewrite E1.
  destruct (settle_all (sync bThis) _ _ (apW ApFrame.fresh [] []))
    as [[[]|e1] w1]; cbn [fst snd] in *.
  - subst post1. rewrite app_nil_r.
    destruct (settle_all_cut That (sync bThat) h1 w1 P1)
      as (h2 & post2 & E2 & P2 & M2).
    rewrite E2.
    destruct (settle_all (sync bThat) _ _ w1)
      as [[[]|e2] w2]; cbn [fst snd] in *.
    + subst post2. rewrite app_nil_r.
      exists ((h1 ++ h2) ++ lates late). split.
      * apply late_cut. now apply P_allState.
      * left. now rewrite <- app_assoc.
    + exists ((h1 ++ h2) ++ lates late). split; [now apply late_cut|].
      destruct post2 as [|e post2].
      * left. now rewrite app_nil_r, <- app_assoc.
      * right. exists (h1 ++ h2), e, (post2 ++ lates late).
        split; [|exact M2]. now rewrite <- !app_assoc.
  - exists (h1 ++ lates late). split; [now apply late_cut|].
    destruct (post1 ++ map (pair That) (sync bThat)) as [|e post] eqn:E.
    + apply app_eq_nil in E as [-> ->]. left. now rewrite app_nil_r.
    + right. exists h1, e, (post ++ lates late).
      split; [|exact M1].
      rewrite <- app_assoc, (app_assoc post1), E. reflexivity.
Qed.

End ApExecutionCut.

Lemma quiet_from_snoc h e : forall p,
  quiet_from p (h ++ [e]) = true <-> foldl phase_step p h <> Joined.
Proof.
  induction h as [|x h IH]; intros p; cbn.
  - destruct p; split; congruence.
  - destruct p; try apply IH. cbn [phase_step].
    rewrite phase_settled by discriminate. split; congruence.
Qed.

Lemma join_is_last_snoc h e : join_is_last (h ++ [e]) <-> phase h <> Joined.
Proof. apply quiet_from_snoc. Qed.

Lemma join_is_last_cut pre e post :
  join_is_last (pre ++ e :: post) -> phase pre <> Joined.
Proof.
  unfold join_is_last, phase. generalize (Pending false false).
  induction pre as [|x pre IH]; intros p; cbn.
  - destruct p; congruence.
  - destruct p; try apply IH. discriminate.
Qed.

Lemma ap_late_apW s o f q t :
  exists f' q' t', snd (ap_late 0 cb01 s o (apW f q t)) = apW f' q' t'.
Proof.
  destruct o as [a|b]; [rewrite ap_late_fail|rewrite ap_late_succeed];
    destruct (ApFrame.rejected f); cbn [snd]; eauto.
  cbn zeta. destruct (_ && _); [destruct (call _ _)|]; cbn [snd]; eauto.
Qed.

Lemma until_join_late h s o w :
  until_join_inv h w ->
  until_join_inv (h ++ [(s, o)]) (snd (ap_late 0 cb01 s o w))
  /\ (is_ok (fst (ap_late 0 cb01 s o w)) \/ phase (h ++ [(s, o)]) = Joined).
Proof.
  intros (f & q & t & -> & H). unfold until_join_inv.
  rewrite phase_snoc. destruct (phase h) as [gT gH|a0|] eqn:Hph.
  - destruct H as (Hr & Hf & Hv & Ht).
    destruct o as [a|b]; [rewrite ap_late_fail|rewrite ap_late_succeed];
      rewrite Hr; cbn [fst snd].
    + split; [|now left]. eexists _, _, _. split; [reflexivity|].
      cbn. rewrite List.filter_app, Ht. now destruct f.
    + cbn zeta. destruct f as [fn fl v vl rj st]. cbn in Hr, Hf, Hv.
      subst rj fl vl.
      destruct s, gT, gH; cbn;
        try (destruct (call _ _) as [r|e]; cbn);
        (split; [|auto]); eexists _, _, _; (split; [reflexivity|]);
        rewrite ?List.filter_app, ?Ht; cbn; auto; intros _; lia.
  - destruct H as (Hr & Ht).
    destruct o as [a|b]; [rewrite ap_late_fail|rewrite ap_late_succeed];
      rewrite Hr; cbn [fst snd]; (split; [|now left]);
      eexists _, _, _; (split; [reflexivity|]); cbn; auto.
  - split; [|now right].
    destruct (ap_late_apW s o f q t) as (f' & q' & t' & ->).
    eexists _, _, _. split; [reflexivity|]. cbn.
    intros G. apply join_is_last_snoc in G. now rewrite Hph in G.
Qed.

Lemma until_join_tick h w : until_join_inv h w -> until_join_inv h (tick w).
Proof.
  intros (f & q & t & -> & H).
  destruct (tick_apW f q t) as (evs & -> & Hevs & _).
  eexists _, _, _. split; [reflexivity|].
  now rewrite List.filter_app, (filter_settlement_cleanup _ Hevs), app_nil_r.
Qed.

Lemma until_join_allState h w v :
  until_join_inv h w ->
  until_join_inv h (snd (modifyAp 0 (ApFrame.set_allState v) w)).
Proof.
  intros (f & q & t & -> & H). rewrite allState_apW.
  eexists _, _, _. split; [reflexivity|]. now destruct f.
Qed.

Lemma single_join_is_last h : single h -> join_is_last h.
Proof.
  induction h as [|e h IH] using rev_ind; [reflexivity|].
  destruct e as [s o]. intros G. apply join_is_last_snoc.
  assert (single h /\ outs s h = []) as [G' Hs].
  { destruct G as [G1 G2]. rewrite !outs_snoc in G1, G2.
    unfold single.
    destruct s; cbn [side_eqb] in G1, G2; rewrite length_app in *;
      cbn [length] in *;
      (split; [split; lia|]).
    - destruct (outs This h); [reflexivity|cbn in G1; lia].
    - destruct (outs That h); [reflexivity|cbn in G2; lia]. }
  clear G. revert Hs. unfold phase, outs.
  enough (forall gT gH,
    (if side_eqb s This then gT = false else gH = false) ->
    omap (fun e => if side_eqb s (fst e) then Some (snd e) else None) h = [] ->
    foldl phase_step (Pending gT gH) h <> Joined) as Hgen.
  { apply Hgen. now destruct s. }
  clear. induction h as [|[s' o'] h IH]; intros gT gH Hg Ho; [discriminate|].
  cbn in Ho |- *. destruct (side_eqb s s') eqn:Es; [discriminate|].
  destruct o' as [a|b]; [now rewrite phase_settled by discriminate|].
  destruct s, s'; try discriminate; cbn in Hg; subst; cbn; apply IH; auto.
Qed.

Lemma calls_return_iff h :
  calls_return h = true <->
  forall o1 o2,
    In o1 (outs This h) -> In o2 (outs That h) -> returns_on o1 o2 = true.
Proof.
  unfold calls_return. rewrite forallb_forall. split.
  - intros H o1 o2 H1 H2. specialize (H o1 H1).
    rewrite forallb_forall in H. auto.
  - intros H o1 H1. apply forallb_forall. auto.
Qed.

Lemma outs_mono s h e x : In x (outs s h) -> In x (outs s (h ++ [e])).
Proof. intros Hx. rewrite outs_app. apply in_or_app. now left. Qed.

Lemma outs_last s o h : In o (outs s (h ++ [(s, o)])).
Proof.
  rewrite outs_snoc. replace (side_eqb s s) with true by now destruct s.
  apply in_or_app. right. now left.
Qed.

Lemma calls_return_prefix h e :
  calls_return (h ++ [e]) = true -> calls_return h = true.
Proof.
  rewrite !calls_return_iff. intros H o1 o2 H1 H2.
  apply H; now apply outs_mono.
Qed.

Lemma join_is_last_pending h :
  phase h <> Joined -> join_is_last h.
Proof.
  destruct h as [|e h _] using rev_ind; [reflexivity|].
  intros Hp. apply join_is_last_snoc. intros E. apply Hp.
  rewrite phase_snoc, E. reflexivity.
Qed.

Lemma after_join_late h s o w :
  after_join_inv h w ->
  after_join_inv (h ++ [(s, o)]) (snd (ap_late 0 cb01 s o w))
  /\ (calls_return (h ++ [(s, o)]) = true ->
      is_ok (fst (ap_late 0 cb01 s o w))).
Proof.
  intros (f & q & t & -> & Hf & Hv & H).
  pose proof (outs_last s o h) as Hnew.
  pose proof (calls_return_prefix h (s, o)) as Hpre.
  pose proof (fun s' x => outs_mono s' h (s, o) x) as Hmono.
  unfold after_join_inv. rewrite phase_snoc.
  destruct o as [a|b]; [rewrite ap_late_fail|rewrite ap_late_succeed].
  - split; [|now destruct (ApFrame.rejected f)].
    destruct (ApFrame.rejected f) eqn:Hr; cbn [snd];
      eexists _, _, _; (split; [reflexivity|]).
    + split; [auto|]. split; [auto|].
      destruct (phase h); cbn; [destruct H; congruence|exact Hr|].
      intros G. destruct (H (Hpre G)) as (H1 & H2 & H3 & H4 & _).
      repeat split; auto.
    + destruct f as [fn fl v vl rj st]. cbn in *. subst rj.
      split; [auto|]. split; [auto|].
      destruct (phase h); cbn; [reflexivity|reflexivity|].
      intros G. destruct (H (Hpre G)) as (H1 & H2 & H3 & _).
      rewrite List.filter_app, length_app. cbn. repeat split; auto; lia.
  - destruct (ApFrame.rejected f) eqn:Hr; cbn [fst snd].
    { split; [|now intros]. eexists _, _, _. split; [reflexivity|].
      split; [auto|]. split; [auto|].
      destruct (phase h); cbn; [destruct H; congruence|exact Hr|].
      intros G. destruct (H (Hpre G)) as (H1 & H2 & H3 & H4 & _).
      repeat split; auto. }
    cbn zeta.
    assert (ApFrame.rejected (loaded s b f) = false) as Hr'.
    { destruct f, s; exact Hr. }
    assert (ApFrame.funcLoaded (loaded s b f) = true ->
            In (Succeed (ApFrame.func (loaded s b f)))
              (outs This (h ++ [(s, Succeed b)]))) as Hf'.
    { destruct f, s; cbn in *; auto. }
    assert (ApFrame.valLoaded (loaded s b f) = true ->
            In (Succeed (ApFrame.val (loaded s b f)))
              (outs That (h ++ [(s, Succeed b)]))) as Hv'.
    { destruct f, s; cbn in *; auto. }
    assert (calls_return (h ++ [(s, Succeed b)]) = true ->
            ApFrame.funcLoaded (loaded s b f) = true ->
            ApFrame.valLoaded (loaded s b f) = true ->
            is_ok (call (ApFrame.func (loaded s b f))
                     [ApFrame.val (loaded s b f)])) as Hcall.
    { intros G L1 L2.
      pose proof (proj1 (calls_return_iff _) G _ _ (Hf' L1) (Hv' L2)) as Hc.
      cbn in Hc. now destruct (call _ _). }
    assert (phase h = Joined -> calls_return (h ++ [(s, Succeed b)]) = true ->
            ApFrame.funcLoaded (loaded s b f) = true
            /\ ApFrame.valLoaded (loaded s b f) = true) as Hboth.
    { intros E G. rewrite E in H. destruct (H (Hpre G)) as (H1 & H2 & _).
      destruct f, s; cbn in *; auto. }
    destruct (ApFrame.funcLoaded (loaded s b f)
              && ApFrame.valLoaded (loaded s b f)) eqn:Hb.
    + apply Bool.andb_true_iff in Hb as [L1 L2].
      destruct (call _ _) as [r|e] eqn:Hc; cbn [fst snd].
      * split; [|now intros]. eexists _, _, _. split; [reflexivity|].
        split; [exact Hf'|]. split; [exact Hv'|].
        destruct (phase h) as [gT gH|a0|] eqn:Hph.
        -- destruct H as (_ & Hfl & Hvl & Ht).
           assert (phase_step (Pending gT gH) (s, Succeed b) = Joined) as ->.
           { destruct f, s; cbn in *; subst; reflexivity. }
           intros _. rewrite !List.filter_app, Ht. cbn.
           repeat split; auto; try congruence.
           left. apply join_is_last_snoc. congruence.
        -- congruence.
        -- cbn. intros G. destruct (H (Hpre G)) as (_ & _ & H3 & _).
           rewrite !List.filter_app, !length_app. cbn.
           repeat split; auto; lia.
      * split.
        2:{ intros G. now destruct (Hcall G L1 L2). }
        eexists _, _, _. split; [reflexivity|].
        split; [exact Hf'|]. split; [exact Hv'|].
        destruct (phase h) as [gT gH|a0|] eqn:Hph.
        -- destruct H as (_ & Hfl & Hvl & Ht).
           assert (phase_step (Pending gT gH) (s, Succeed b) = Joined) as ->.
           { destruct f, s; cbn in *; subst; reflexivity. }
           intros G. now destruct (Hcall G L1 L2).
        -- congruence.
        -- cbn. intros G. now destruct (Hcall G L1 L2).
    + cbn [fst snd]. split; [|now intros].
      eexists _, _, _. split; [reflexivity|].
      split; [exact Hf'|]. split; [exact Hv'|].
      destruct (phase h) as [gT gH|a0|] eqn:Hph.
      * destruct H as (_ & Hfl & Hvl & Ht).
        destruct f as [fn fl v vl rj st]. cbn in Hfl, Hvl, Hr. subst.
        destruct s, gT, gH; cbn in Hb |- *; try discriminate; auto.
      * congruence.
      * cbn. intros G. destruct (Hboth eq_refl G) as [L1 L2].
        rewrite L1, L2 in Hb. discriminate.
Qed.

Lemma after_join_tick h w : after_join_inv h w -> after_join_inv h (tick w).
Proof.
  intros (f & q & t & -> & H).
  destruct (tick_apW f q t) as (evs & -> & Hevs & _).
  eexists _, _, _. split; [reflexivity|].
  now rewrite List.filter_app, (filter_settlement_cleanup _ Hevs), app_nil_r.
Qed.

Lemma after_join_allState h w v :
  after_join_inv h w ->
  after_join_inv h (snd (modifyAp 0 (ApFrame.set_allState v) w)).
Proof.
  intros (f & q & t & -> & H). rewrite allState_apW.
  eexists _, _, _. split; [reflexivity|]. now destruct f.
Qed.

(** X15: where the missing latch of [ap] shows.  A Task built by [ap]
    calls at most one of its two continuations, at most once, in every
    execution in which nothing follows the join: whatever the inputs do
    (several settlements, failures after successes, a function that
    throws), as long as no settlement of either input arrives after both
    have succeeded with no failure before; in particular when each input
    settles at most once.  And when the functions that arrive return on the
    values that arrive, this is the only case: if a settlement of either
    input follows the join, the composed Task calls its continuations at
    least twice. *)
Theorem ap_settles_once_until_join bThis bThat late :
  (join_is_last (history bThis bThat late) ->
   length (settlements (ap_exec bThis bThat late)) <= 1)
  /\ (single (history bThis bThat late) ->
      length (settlements (ap_exec bThis bThat late)) <= 1)
  /\ (calls_return (history bThis bThat late) = true ->
      ~ join_is_last (history bThis bThat late) ->
      2 <= length (settlements (ap_exec bThis bThat late))).
Proof.
  assert (join_is_last (history bThis bThat late) ->
          length (settlements (ap_exec bThis bThat late)) <= 1) as Hmain.
  { intros G.
    destruct (ap_exec_cut until_join_inv (fun h => phase h = Joined))
      with (bThis := bThis) (bThat := bThat) (late := late)
      as (h & (f & q & t & E & H) & Hh).
    - exists ApFrame.fresh, [], []. cbn. repeat split.
    - apply until_join_late.
    - apply until_join_tick.
    - apply until_join_allState.
    - destruct Hh as [->|(pre & e & post & Hh & Hbad)].
      2:{ rewrite Hh in G. now apply join_is_last_cut in G. }
      unfold settlements. rewrite E. cbn [trace apW].
      destruct (phase (history bThis bThat late)).
      + destruct H as (_ & _ & _ & ->). cbn. lia.
      + destruct H as (_ & ->). cbn. lia.
      + auto. }
  split; [exact Hmain|]. split.
  { intros G. apply Hmain. now apply single_join_is_last. }
  intros G Hlate.
  destruct (ap_exec_ind after_join_inv (fun h => calls_return h = true)
              calls_return_prefix)
    with (bThis := bThis) (bThat := bThat) (late := late)
    as (h & _ & HP & Hg).
  - exists ApFrame.fresh, [], []. cbn. repeat split; discriminate.
  - apply after_join_late.
  - apply after_join_tick.
  - apply after_join_allState.
  - rewrite (Hg G) in HP. destruct HP as (f & q & t & E & _ & _ & H).
    unfold settlements. rewrite E. cbn [trace apW].
    destruct (phase (history bThis bThat late)) eqn:Hph;
      try (contradiction Hlate; apply join_is_last_pending;
           rewrite Hph; discriminate).
    destruct (H G) as (_ & _ & _ & _ & [Hl|Hl]); [contradiction|exact Hl].
Qed.

(** ** Sequential transformers *)

(** C6: each of [map], [chain], [orElse], [rejectedMap], [bimap], [swap],
    [fold] and [cata] returns a Task whose cleanup procedure is the one of
    the Task it transforms, and whose fork procedure runs the fork procedure
    of that Task, once, on continuations of its own, and returns what it
    returns: on an input whose fork procedure returns the run-state
    [runState b], a fork of the new Task that returns at all returns
    [runState b]. *)
Theorem transformers_keep_cleanup_and_run_state :
  forall tr this,
    cleanup (transform tr this) = cleanup this
    /\ (forall reject resolve,
          exists k_reject k_resolve,
            forall w,
              fork (transform tr this) reject resolve w =
                fork this k_reject k_resolve w)
    /\ (forall tag b reject resolve w st w',
          fork (transform tr (opaque tag b)) reject resolve w = (Ok st, w') ->
          st = runState b).
Proof.
  assert (forall tag b k1 k2 w st w',
            fork (opaque tag b) k1 k2 w = (Ok st, w') -> st = runState b)
    as Hopaque.
  { intros tag b k1 k2 w st w'. cbn. unfold bind, ret.
    destruct (settle_all _ _ _ _) as [[[]|e] w1]; congruence. }
  intros tr this. split; [now destruct tr|]. split.
  - intros reject resolve. destruct tr; cbn; eauto.
  - intros tag b reject resolve w st w'.
    destruct tr; cbn [transform]; apply Hopaque.
Qed.

(** ** Monad laws *)

(** C8: forked with the same continuations in the same world,
    [Task.of(v).chain(f)] does what [f(v)] does, and [t.chain(Task.of)] does
    what [t] does; in the second law the continuations that [t] receives,
    and may call in later turns, do what the given ones do: the same calls
    of the same continuations with the same values. *)
Theorem chain_monad_laws :
  (forall v (f : Val -> Task) reject resolve w,
     fork (_chain (_of v) f) reject resolve w = fork (f v) reject resolve w)
  /\ (forall t reject resolve w,
        fork (_chain t _of) reject resolve w = fork t reject resolve w)
  /\ (forall reject resolve,
        exists k_reject k_resolve,
          (forall t,
             fork (_chain t _of) reject resolve =
               fork t k_reject k_resolve)
          /\ (forall x w, k_reject x w = reject x w)
          /\ (forall x w, k_resolve x w = resolve x w)).
Proof.
  split; [reflexivity|]. split; [reflexivity|].
  intros reject resolve.
  exists (fun a => reject a), (fun b => fork (_of b) reject resolve).
  repeat split.
Qed.

(** ** map2 .. map10 *)

Lemma of_resolves_first a : resolves_first (_of a).
Proof.
  exists a, (fun _ _ x => ret x). intros reject resolve w. cbn.
  unfold bind, ret. now destruct (resolve a w) as [[x|e] w'].
Qed.

Lemma opaque_resolves_first tag b a rest :
  sync b = Succeed a :: rest -> resolves_first (opaque tag b).
Proof.
  intros Hb.
  exists a, (fun reject resolve _ =>
               settle_all rest reject resolve;; ret (runState b)).
  intros reject resolve w. cbn. rewrite Hb. cbn. unfold bind.
  now destruct (resolve a w) as [[x|e] w1].
Qed.



Lemma map2_of_resolves f a1 a2 r :
  call f [a1; a2] = Ok r ->
  settlements
    (snd (fork (_map2 (_of a1) f (_of a2)) on_reject on_resolve empty_world))
  = [CallResolve r].
Proof.
  intros Hc. cbn. unfold bind, lift. cbn.
  destruct f; cbn in Hc |- *; try discriminate Hc; rewrite Hc; reflexivity.
Qed.

(** C3: [Task.of(a1).map3(f, Task.of(a2), Task.of(a3))] does not resolve
    to [f(a1, a2, a3)]: its fork raises a ReferenceError for [par2], calls
    neither continuation and forks neither [Task.of(a2)] nor
    [Task.of(a3)]. *)
Theorem map3_of_raises f a1 a2 a3 :
  fork (_map3 (_of a1) f (_of a2) (_of a3)) on_reject on_resolve empty_world
  = (Throw (ReferenceError "par2"),
     {| apFrames := [ApFrame.fresh; ApFrame.fresh]; concatFrames := [];
        queue := []; trace := [] |}).
Proof. reflexivity. Qed.


(** ** Further properties *)

(** Continuations that agree on the outcomes of a fork procedure are
    interchangeable for it. *)
Lemma settle_all_map g os k1 k2 k1' k2' :
  (forall o, In o os ->
     forall w, settle (g o) k1 k2 w = settle o k1' k2' w) ->
  forall w, settle_all (map g os) k1 k2 w = settle_all os k1' k2' w.
Proof.
  induction os as [|o os IH]; intros H w; [reflexivity|].
  cbn [map]. rewrite !settle_all_cons, (H o (or_introl eq_refl)).
  destruct (settle o k1' k2' w) as [[v|e] w1]; [|reflexivity].
  apply IH. intros o' Ho'. apply H. now right.
Qed.

Lemma settle_all_ext os k1 k2 k1' k2' :
  (forall o, In o os ->
     forall w, settle o k1 k2 w = settle o k1' k2' w) ->
  forall w, settle_all os k1 k2 w = settle_all os k1' k2' w.
Proof.
  intros H w. rewrite <- (map_id os) at 1.
  now apply (settle_all_map (fun o => o)).
Qed.

Lemma opaque_fork tag b k1 k2 w :
  fork (opaque tag b) k1 k2 w =
    match settle_all (sync b) k1 k2 w with
    | (Ok _, w1) => (Ok (runState b), w1)
    | (Throw e, w1) => (Throw e, w1)
    end.
Proof. reflexivity. Qed.

(** *** Functor *)

(** X1: the functor laws of [map], on every input and for every pair of
    continuations: mapping a function that returns its argument changes
    nothing, and mapping [f] then [g] is mapping their composition,
    exceptions included. *)
Theorem map_functor_laws tag b reject resolve w :
  (forall f,
     (forall x, call f [x] = Ok x) ->
     fork (_map (opaque tag b) f) reject resolve w =
       fork (opaque tag b) reject resolve w)
  /\ (forall f g h,
        (forall x,
           call h [x] =
             match call f [x] with
             | Ok y => call g [y]
             | Throw e => Throw e
             end) ->
        fork (_map (_map (opaque tag b) f) g) reject resolve w =
          fork (_map (opaque tag b) h) reject resolve w).
Proof.
  split.
  - intros f Hf. cbn [_map new_Task fork]. rewrite !opaque_fork.
    rewrite (settle_all_ext (sync b) _ _ reject resolve); [reflexivity|].
    intros [a|x] _ w0; cbn; [reflexivity|].
    unfold bind, lift. now rewrite Hf.
  - intros f g h Hh. cbn [_map new_Task fork]. rewrite !opaque_fork.
    match goal with |- match settle_all _ ?kr ?ks _ with _ => _ end = _ =>
      rewrite (settle_all_ext (sync b) kr ks
                 (fun a => reject a)
                 (fun x => r <- lift (call h [x]);; resolve r)) end;
      [reflexivity|].
    intros [a|x] _ w0; cbn; [reflexivity|].
    unfold bind, lift. rewrite Hh. now destruct (call f [x]).
Qed.

(** *** Sequencing and recovery *)

(** X2: laws of sequencing and recovery, for every Task and every pair of
    continuations.  [chain] is associative; [orElse] has [rejected] as
    identity on both sides and is associative; [bimap(f, g)] is [map(g)]
    followed by [rejectedMap(f)]; and [fold(f, g)] is [bimap(f, g)]
    followed by a recovery into [of]. *)
Theorem sequencing_laws :
  (forall t (f g : Val -> Task),
     _chain (_chain t f) g = _chain t (fun x => _chain (f x) g))
  /\ (forall e (f : Val -> Task) reject resolve w,
        fork (_orElse (_rejected e) f) reject resolve w =
          fork (f e) reject resolve w)
  /\ (forall t reject resolve w,
        fork (_orElse t _rejected) reject resolve w =
          fork t reject resolve w)
  /\ (forall t (f g : Val -> Task),
        _orElse (_orElse t f) g = _orElse t (fun x => _orElse (f x) g))
  /\ (forall t f g reject resolve w,
        fork (_bimap t f g) reject resolve w =
          fork (_rejectedMap (_map t g) f) reject resolve w)
  /\ (forall t f g reject resolve w,
        fork (_fold t f g) reject resolve w =
          fork (_orElse (_bimap t f g) _of) reject resolve w).
Proof. repeat split. Qed.

(** X3: a transformer of one channel leaves alone a Task that only settles
    on the other: on an input that only fails, [map] and [chain] do what
    the input does and their function is not called; on an input that only
    succeeds, so do [rejectedMap] and [orElse]. *)
Theorem untouched_channel_passes tag b reject resolve w :
  (Forall failing (sync b) ->
   forall f k,
     fork (_map (opaque tag b) f) reject resolve w =
       fork (opaque tag b) reject resolve w
     /\ fork (_chain (opaque tag b) k) reject resolve w =
          fork (opaque tag b) reject resolve w)
  /\ (Forall succeeding (sync b) ->
      forall f k,
        fork (_rejectedMap (opaque tag b) f) reject resolve w =
          fork (opaque tag b) reject resolve w
        /\ fork (_orElse (opaque tag b) k) reject resolve w =
             fork (opaque tag b) reject resolve w).
Proof.
  split; intros Hb f k; rewrite List.Forall_forall in Hb;
    (split; cbn [_map _chain _rejectedMap _orElse new_Task fork];
     rewrite !opaque_fork;
     (rewrite (settle_all_ext (sync b) _ _ reject resolve);
      [reflexivity|]);
     intros o Ho w0; specialize (Hb o Ho); destruct o; cbn in Hb |- *;
     [reflexivity || destruct Hb ..]).
Qed.

(** *** Swap *)

(** X4: [swap] exchanges the two channels of every settlement of its
    input; swapping twice gives back the fork procedure and the cleanup of
    the input; and [orElse] is [chain] between two swaps. *)
Theorem swap_laws :
  (forall tag b reject resolve w,
     fork (_swap (opaque tag b)) reject resolve w =
       fork (opaque tag (flipped b)) reject resolve w)
  /\ (forall t reject resolve w,
        fork (_swap (_swap t)) reject resolve w = fork t reject resolve w)
  /\ (forall t, cleanup (_swap (_swap t)) = cleanup t)
  /\ (forall t (f : Val -> Task) reject resolve w,
        fork (_orElse t f) reject resolve w =
          fork (_swap (_chain (_swap t) (fun x => _swap (f x))))
            reject resolve w).
Proof.
  split; [|repeat split].
  intros tag b reject resolve w. cbn [_swap new_Task fork].
  rewrite !opaque_fork. cbn [flipped sync runState].
  rewrite (settle_all_map flip (sync b) reject resolve
             (fun a => resolve a) (fun x => reject x)); [reflexivity|].
  now intros [a|x].
Qed.

(** *** Fold *)

(** X5: the Task built by [fold] never calls its failure continuation: its
    fork procedure does not depend on it, and on every input it only calls
    the success continuation, at most once per settlement of the input,
    whether or not the two functions throw. *)
Theorem fold_never_rejects :
  (forall t f g reject reject' resolve w,
     fork (_fold t f g) reject resolve w =
       fork (_fold t f g) reject' resolve w)
  /\ (forall tag b f g w,
        exists vs,
          trace (snd (fork (_fold (opaque tag b) f g) on_reject on_resolve w))
          = trace w ++ map CallResolve vs
          /\ length vs <= length (sync b)).
Proof.
  split; [reflexivity|].
  intros tag b f g w. cbn [_fold new_Task fork]. rewrite opaque_fork.
  assert (forall os w0,
            exists vs,
              trace (snd (settle_all os
                            (fun a => r <- lift (call f [a]);; on_resolve r)
                            (fun x => r <- lift (call g [x]);; on_resolve r)
                            w0))
              = trace w0 ++ map CallResolve vs
              /\ length vs <= length os) as H.
  { induction os as [|o os IH]; intros w0.
    - exists []. cbn. now rewrite app_nil_r.
    - rewrite settle_all_cons.
      assert (exists r,
                settle o (fun a => r <- lift (call f [a]);; on_resolve r)
                  (fun x => r <- lift (call g [x]);; on_resolve r) w0
                = match r with
                  | Ok v =>
                      (Ok VUndef,
                       {| apFrames := apFrames w0;
                          concatFrames := concatFrames w0;
                          queue := queue w0;
                          trace := trace w0 ++ [CallResolve v] |})
                  | Throw e => (Throw e, w0)
                  end) as [r ->].
      { destruct o as [a|x]; cbn; unfold bind, lift;
          [exists (call f [a]); destruct (call f [a])
          |exists (call g [x]); destruct (call g [x])]; reflexivity. }
      destruct r as [v|e].
      + match goal with |- context [settle_all os _ _ ?w1] =>
          destruct (IH w1) as (vs & -> & Hl) end.
        exists (v :: vs). cbn [trace map length].
        rewrite <- app_assoc. split; [reflexivity|lia].
      + exists []. cbn. rewrite app_nil_r. split; [reflexivity|lia]. }
  destruct (H (sync b) w) as (vs & Hvs & Hl). exists vs.
  destruct (settle_all _ _ _ w) as [[[]|e] w1]; auto.
Qed.

(** *** Exceptions of the user's functions *)

(** X6: an exception of the function given to [map], [rejectedMap],
    [bimap] or [fold] is not turned into a failure: it leaves the fork
    procedure as an exception, before either continuation is called and
    before the input settles again; a value that is not a function makes
    [map] raise a TypeError in the same way. *)
Theorem thrown_exceptions_escape f x e tag rest st reject resolve w :
  call f [x] = Throw e ->
  let succeeds := opaque tag {| sync := Succeed x :: rest; runState := st |} in
  let fails := opaque tag {| sync := Fail x :: rest; runState := st |} in
  fork (_map (_of x) f) reject resolve w = (Throw e, w)
  /\ fork (_map succeeds f) reject resolve w = (Throw e, w)
  /\ fork (_rejectedMap fails f) reject resolve w = (Throw e, w)
  /\ (forall g,
        fork (_bimap succeeds g f) reject resolve w = (Throw e, w)
        /\ fork (_bimap fails f g) reject resolve w = (Throw e, w)
        /\ fork (_fold succeeds g f) reject resolve w = (Throw e, w)
        /\ fork (_fold fails f g) reject resolve w = (Throw e, w))
  /\ (forall n,
        fork (_map (_of x) (VNum n)) reject resolve w =
          (Throw (TypeError "not a function"), w)).
Proof.
  intros Hc succeeds fails. subst succeeds fails.
  repeat split; cbn; unfold bind, lift; cbn; rewrite ?Hc; reflexivity.
Qed.

(** *** Run-states and cleanup *)

Lemma transform_fork tr t reject resolve :
  exists k1 k2, forall w,
    fork (transform tr t) reject resolve w = fork t k1 k2 w.
Proof. destruct tr; cbn; eauto. Qed.

Lemma build_returns p : forall reject resolve w st w',
  fork (build p) reject resolve w = (Ok st, w') -> st = run_state_of p.
Proof.
  induction p as [tag b|tr p IH|p1 IH1 p2 IH2|p1 IH1 p2 IH2];
    intros reject resolve w st w'; cbn [build run_state_of].
  - rewrite opaque_fork.
    destruct (settle_all _ _ _ _) as [[[]|e] w1]; congruence.
  - destruct (transform_fork tr (build p) reject resolve) as (k1 & k2 & ->).
    apply IH.
  - cbn [_ap new_Task fork]. unfold bind, allocAp, modifyAp, ret.
    destruct (fork (build p1) _ _ _) as [[s1|e] w1] eqn:E1; [|discriminate].
    destruct (fork (build p2) _ _ _) as [[s2|e] w2] eqn:E2; [|discriminate].
    apply IH1 in E1. apply IH2 in E2. congruence.
  - cbn [_concat new_Task fork]. unfold bind, allocConcat, modifyConcat, ret.
    destruct (fork (build p1) _ _ _) as [[s1|e] w1] eqn:E1; [|discriminate].
    destruct (fork (build p2) _ _ _) as [[s2|e] w2] eqn:E2; [|discriminate].
    apply IH1 in E1. apply IH2 in E2. congruence.
Qed.

Lemma build_cleans p : forall w0,
  call_cleanup (cleanup (build p)) (run_state_of p) w0 =
    (Ok tt, recorded w0 (leaf_cleanups p)).
Proof.
  assert (forall c1 c2 s1 s2 e1 e2,
            (forall w, call_cleanup c1 s1 w = (Ok tt, recorded w e1)) ->
            (forall w, call_cleanup c2 s2 w = (Ok tt, recorded w e2)) ->
            forall w,
              call_cleanup (CleanupBoth c1 c2) (VArr [s1; s2]) w =
                (Ok tt, recorded w (e1 ++ e2))) as Hboth.
  { intros c1 c2 s1 s2 e1 e2 H1 H2 w. cbn. unfold bind, lift.
    rewrite H1, H2. unfold recorded. cbn. now rewrite <- app_assoc. }
  induction p as [tag b|tr p IH|p1 IH1 p2 IH2|p1 IH1 p2 IH2]; intros w0;
    cbn [build run_state_of leaf_cleanups].
  - reflexivity.
  - replace (cleanup (transform tr (build p))) with (cleanup (build p))
      by now destruct tr.
    apply IH.
  - now apply Hboth.
  - now apply Hboth.
Qed.

(** X8: for a Task composed from opaque inputs by the transformers, [ap]
    and [concat], the run-state that a fork returns is the one its cleanup
    procedure takes apart: called with it, the cleanup calls the cleanup of
    every input once, from left to right, each with the run-state of its
    own input, and does not throw. *)
Theorem cleanup_takes_fork_run_state p reject resolve w st w' :
  fork (build p) reject resolve w = (Ok st, w') ->
  st = run_state_of p
  /\ forall w0,
       call_cleanup (cleanup (build p)) st w0 =
         (Ok tt, recorded w0 (leaf_cleanups p)).
Proof.
  intros H. apply build_returns in H. subst st.
  split; [reflexivity|]. apply build_cleans.
Qed.

(** *** The identity of the race *)

Lemma guard_step cb c q t o :
  settle o (guard 0 cb on_reject) (guard 0 cb on_resolve) (concatW c q t) =
    if ConcatFrame.done c then (Ok VUndef, concatW c q t)
    else (Ok VUndef,
          concatW (ConcatFrame.set_done true c)
            (q ++ [{| thunk_cleanup := cb; thunk_frame := InConcat 0 |}])
            ((t ++ [CallDelayed]) ++ [event_of o])).
Proof. destruct c as [[] st], o; reflexivity. Qed.

Lemma guard_settle_all cb os : forall c q t,
  settle_all os (guard 0 cb on_reject) (guard 0 cb on_resolve)
    (concatW c q t) =
    (Ok tt,
     if ConcatFrame.done c then concatW c q t
     else
       match os with
       | [] => concatW c q t
       | o :: _ =>
           concatW (ConcatFrame.set_done true c)
             (q ++ [{| thunk_cleanup := cb; thunk_frame := InConcat 0 |}])
             ((t ++ [CallDelayed]) ++ [event_of o])
       end).
Proof.
  induction os as [|o os IH]; intros c q t.
  - cbn. now destruct (ConcatFrame.done c).
  - rewrite settle_all_cons, guard_step.
    destruct (ConcatFrame.done c) eqn:Hd.
    + rewrite IH, Hd. reflexivity.
    + rewrite IH. reflexivity.
Qed.

Lemma first_settlement_one_sided h :
  (outs That h = [] -> first_settlement h = first_event (outs This h))
  /\ (outs This h = [] -> first_settlement h = first_event (outs That h)).
Proof.
  destruct h as [|[[] o] h]; cbn; split; intros H;
    try reflexivity; discriminate H.
Qed.

(** X9: [empty] is the identity of [concat].  Raced against [empty], on
    either side, a Task settles the race with its own first settlement (and
    with none when it has none); in general, when one input of [concat]
    never settles, the race is settled by the first settlement of the
    other. *)
Theorem empty_is_concat_identity :
  (forall tag b,
     settlements
       (snd (fork (_concat (opaque tag b) _empty) on_reject on_resolve
               empty_world)) = first_event (sync b)
     /\ settlements
          (snd (fork (_concat _empty (opaque tag b)) on_reject on_resolve
                  empty_world)) = first_event (sync b))
  /\ (forall bThis bThat late,
        outs That (history bThis bThat late) = [] ->
        settlements (concat_exec bThis bThat late) =
          first_event (outs This (history bThis bThat late)))
  /\ (forall bThis bThat late,
        outs This (history bThis bThat late) = [] ->
        settlements (concat_exec bThis bThat late) =
          first_event (outs That (history bThis bThat late))).
Proof.
  split; [|split].
  - intros tag b. split.
    + cbn [_concat _empty new_Task fork cleanup].
      unfold bind at 1. cbn [allocConcat empty_world concatFrames length app
                               apFrames queue trace].
      unfold bind at 1. rewrite opaque_fork.
      change {| apFrames := []; concatFrames := [ConcatFrame.fresh];
                queue := []; trace := [] |}
        with (concatW ConcatFrame.fresh [] []).
      rewrite guard_settle_all. now destruct (sync b) as [|[] ?].
    + cbn [_concat _empty new_Task fork cleanup].
      unfold bind at 1. cbn [allocConcat empty_world concatFrames length app
                               apFrames queue trace].
      unfold bind at 1. unfold ret at 1. unfold bind at 1.
      rewrite opaque_fork.
      change {| apFrames := []; concatFrames := [ConcatFrame.fresh];
                queue := []; trace := [] |}
        with (concatW ConcatFrame.fresh [] []).
      rewrite guard_settle_all. now destruct (sync b) as [|[] ?].
  - intros bThis bThat late H. rewrite concat_settlements.
    now apply first_settlement_one_sided.
  - intros bThis bThat late H. rewrite concat_settlements.
    now apply first_settlement_one_sided.
Qed.

(** *** The deferred cleanup of [concat] *)

Lemma tick_concat_thunk_events c q t :
  tick (concatW c (concat_thunk :: q) t) =
    concatW c q (t ++ cleanup_events (ConcatFrame.allState c)).
Proof.
  destruct c as [d st].
  destruct st; cbn; rewrite ?app_nil_r, <- ?app_assoc; reflexivity.
Qed.

Lemma race_clean_late ticks st h s o w :
  race_clean_inv ticks st h w ->
  race_clean_inv ticks st (h ++ [(s, o)]) (snd (concat_late 0 cb01 o w)).
Proof.
  intros (c & q & t & -> & Hst & H). rewrite concat_late_step.
  destruct h as [|e h]; cbn [app].
  - destruct H as (Hd & -> & ->). rewrite Hd. cbn [snd].
    eexists _, _, _. split; [reflexivity|]. split; [now destruct c|].
    split; [reflexivity|]. now left.
  - destruct H as (Hd & H). rewrite Hd. cbn [snd].
    eexists _, _, _. split; [reflexivity|]. auto.
Qed.

Lemma race_clean_tick st h w :
  race_clean_inv true st h w -> race_clean_inv true st h (tick w).
Proof.
  intros (c & q & t & -> & Hst & H).
  destruct h as [|e h].
  - destruct H as (Hd & -> & ->). exists c, [], []. auto.
  - destruct H as (Hd & [[-> ->]|(_ & -> & ->)]).
    + rewrite tick_concat_thunk_events, Hst.
      eexists _, _, _. split; [reflexivity|]. split; [exact Hst|].
      split; [exact Hd|]. right. auto.
    + eexists _, _, _. split; [reflexivity|]. split; [exact Hst|].
      split; [exact Hd|]. right. auto.
Qed.

Lemma concat_exec_clean bThis bThat late :
  race_clean_inv true (VArr [runState bThis; runState bThat])
    (history bThis bThat late) (concat_exec bThis bThat late).
Proof.
  unfold concat_exec, history. rewrite concat_fork_opaque.
  change (cleanup (_concat (opaque 0 bThis) (opaque 1 bThat))) with cb01.
  pose proof (race_clean_late false VUndef) as Hlate.
  destruct (concat_settle_all_ind _ Hlate This (sync bThis) []
              (concatW ConcatFrame.fresh [] [])) as (O1 & P1).
  { exists ConcatFrame.fresh, [], []. repeat split. }
  cbn [app] in P1.
  destruct (settle_all (sync bThis) _ _ (concatW ConcatFrame.fresh [] []))
    as [[[]|e1] w1]; cbn [fst snd] in *; [|destruct O1].
  destruct (concat_settle_all_ind _ Hlate That (sync bThat) _ w1 P1)
    as (O2 & P2).
  destruct (settle_all (sync bThat) _ _ w1)
    as [[[]|e2] w2]; cbn [fst snd] in *; [|destruct O2].
  rewrite app_assoc.
  apply (concat_late_ind _ (race_clean_late true _) (race_clean_tick _)).
  destruct P2 as (c & q & t & -> & Hst & H). rewrite allState_concatW.
  eexists _, _, _. split; [reflexivity|]. split; [now destruct c|].
  destruct (_ ++ _) as [|e h]; [now destruct c|].
  destruct H as (Hd & [H|(? & _)]); [|discriminate].
  split; [now destruct c|]. now left.
Qed.

Lemma exec_snoc_tick {A} (f : World -> Turn -> World) (w : World) late
    (g : World -> A) :
  g (foldl f w (late ++ [Tick])) = g (f (foldl f w late) Tick).
Proof. now rewrite foldl_app. Qed.

(** X10: in [concat], cleanup follows settlement.  As long as neither
    input has settled, nothing is recorded and nothing is pending, however
    many turns pass.  Once an input has settled, the next run of the
    deferred procedures leaves this trace: the call of [delayed], the first
    settlement, then the cleanup of [this] and the cleanup of [that], each
    on the run-state its fork returned, the loser's included. *)
Theorem concat_cleans_both_after_settlement bThis bThat late :
  (history bThis bThat late = [] ->
   trace (concat_exec bThis bThat late) = []
   /\ queue (concat_exec bThis bThat late) = [])
  /\ (forall e rest,
        history bThis bThat late = e :: rest ->
        trace (concat_exec bThis bThat (late ++ [Tick])) =
          [CallDelayed; event_of (snd e);
           CallCleanup 0 (runState bThis); CallCleanup 1 (runState bThat)]
        /\ queue (concat_exec bThis bThat (late ++ [Tick])) = []).
Proof.
  pose proof (concat_exec_clean bThis bThat late) as (c & q & t & E & Hst & H).
  split.
  - intros Hh. rewrite Hh in H. rewrite E. now destruct H as (_ & -> & ->).
  - intros e rest Hh. rewrite Hh in H.
    unfold concat_exec in *. rewrite !exec_snoc_tick.
    cbn [concat_turn]. rewrite E.
    destruct H as (Hd & [[-> ->]|(_ & -> & ->)]).
    + rewrite tick_concat_thunk_events, Hst. now split.
    + now split.
Qed.

(** *** The deferred cleanup of [ap] *)

Lemma tick_ap_thunk f q t :
  tick (apW f (ap_thunk :: q) t) =
    apW f q (t ++ cleanup_events (ApFrame.allState f)).
Proof.
  destruct f as [fn fl v vl rj st].
  destruct st; cbn; rewrite ?app_nil_r, <- ?app_assoc; reflexivity.
Qed.

Lemma join_late ticks fv vv r st h s o w :
  call fv [vv] = Ok r ->
  join_inv ticks fv vv r st h w ->
  join_inv ticks fv vv r st (h ++ [(s, o)]) (snd (ap_late 0 cb01 s o w))
  /\ (success_good fv vv (h ++ [(s, o)]) ->
      is_ok (fst (ap_late 0 cb01 s o w))).
Proof.
  intros call_ok (f & q & t & -> & Hst & H). unfold join_inv.
  destruct o as [a|b]; [rewrite ap_late_fail|rewrite ap_late_succeed].
  - destruct (ApFrame.rejected f); cbn [fst snd];
      (split; [|intros _; exact I]);
      eexists _, _, _; (split; [reflexivity|]);
      (split; [now destruct f|]);
      intros G; apply success_good_snoc in G as (_ & _ & G);
      discriminate G.
  - destruct (ApFrame.rejected f) eqn:Hr; cbn [fst snd].
    { split; [|intros _; exact I].
      eexists _, _, _. split; [reflexivity|]. split; [exact Hst|].
      intros G. apply success_good_snoc in G as (G & _ & _).
      destruct (H G) as (Hr' & _). congruence. }
    cbn zeta.
    assert (success_good fv vv (h ++ [(s, Succeed b)]) ->
            ApFrame.funcLoaded f = nonempty (outs This h)
            /\ ApFrame.valLoaded f = nonempty (outs That h)
            /\ (ApFrame.funcLoaded f = true -> ApFrame.func f = fv)
            /\ (ApFrame.valLoaded f = true -> ApFrame.val f = vv)
            /\ q = [] /\ t = []
            /\ outs s h = []
            /\ b = match s with This => fv | That => vv end) as Hfacts.
    { intros G. apply success_good_snoc in G as (G & Hs & Hb).
      destruct (H G) as (_ & Hf & Hv & Hfn & Hvv & Hif).
      injection Hb as ->.
      assert (ApFrame.funcLoaded f && ApFrame.valLoaded f = false) as Hn.
      { destruct s; rewrite ?Hf, ?Hv, Hs; cbn;
          [reflexivity|apply Bool.andb_false_r]. }
      rewrite Hn in Hif. destruct Hif. repeat split; auto. }
    clear H.
    destruct f as [fn fl v vl rj st0]; cbn in Hr, Hfacts, Hst; subst rj st0.
    destruct s; cbn [loaded ApFrame.set_func ApFrame.set_funcLoaded
                     ApFrame.set_val ApFrame.set_valLoaded
                     ApFrame.func ApFrame.funcLoaded ApFrame.val
                     ApFrame.valLoaded ApFrame.rejected ApFrame.allState
                     andb].
    + destruct vl.
      * destruct (call b [v]) as [r'|e] eqn:Hc; cbn [fst snd].
        -- split; [|intros _; exact I].
           eexists _, _, _. split; [reflexivity|]. split; [reflexivity|].
           intros G.
           destruct (Hfacts G) as (Hf & Hv & Hfn & Hvv & -> & -> & Hs & ->).
           rewrite !outs_snoc. cbn [side_eqb]. rewrite Hs in *. subst fl.
           rewrite (Hvv eq_refl) in Hc. rewrite call_ok in Hc.
           injection Hc as <-. cbn. repeat split; auto.
        -- assert (success_good fv vv (h ++ [(This, Succeed b)]) -> False)
             as Hno.
           { intros G.
             destruct (Hfacts G) as (Hf & Hv & Hfn & Hvv & _ & _ & Hs & ->).
             rewrite (Hvv eq_refl) in Hc. rewrite call_ok in Hc.
             discriminate. }
           split; [|intros G; destruct (Hno G)].
           eexists _, _, _. split; [reflexivity|]. split; [reflexivity|].
           intros G; destruct (Hno G).
      * cbn [fst snd]. split; [|intros _; exact I].
        eexists _, _, _. split; [reflexivity|]. split; [reflexivity|].
        intros G.
        destruct (Hfacts G) as (Hf & Hv & Hfn & Hvv & -> & -> & Hs & ->).
        rewrite !outs_snoc. cbn [side_eqb]. rewrite Hs in *. subst fl.
        cbn. repeat split; auto; try discriminate.
    + destruct fl; cbn [andb].
      * destruct (call fn [b]) as [r'|e] eqn:Hc; cbn [fst snd].
        -- split; [|intros _; exact I].
           eexists _, _, _. split; [reflexivity|]. split; [reflexivity|].
           intros G.
           destruct (Hfacts G) as (Hf & Hv & Hfn & Hvv & -> & -> & Hs & ->).
           rewrite !outs_snoc. cbn [side_eqb]. rewrite Hs in *. subst vl.
           rewrite (Hfn eq_refl) in Hc. rewrite call_ok in Hc.
           injection Hc as <-. cbn. repeat split; auto.
        -- assert (success_good fv vv (h ++ [(That, Succeed b)]) -> False)
             as Hno.
           { intros G.
             destruct (Hfacts G) as (Hf & Hv & Hfn & Hvv & _ & _ & Hs & ->).
             rewrite (Hfn eq_refl) in Hc. rewrite call_ok in Hc.
             discriminate. }
           split; [|intros G; destruct (Hno G)].
           eexists _, _, _. split; [reflexivity|]. split; [reflexivity|].
           intros G; destruct (Hno G).
      * cbn [fst snd]. split; [|intros _; exact I].
        eexists _, _, _. split; [reflexivity|]. split; [reflexivity|].
        intros G.
        destruct (Hfacts G) as (Hf & Hv & Hfn & Hvv & -> & -> & Hs & ->).
        rewrite !outs_snoc. cbn [side_eqb]. rewrite Hs in *. subst vl.
        cbn. repeat split; auto; try discriminate.
Qed.

Lemma join_tick fv vv r st h w :
  join_inv true fv vv r st h w -> join_inv true fv vv r st h (tick w).
Proof.
  intros (f & q & t & -> & Hst & H).
  destruct (tick_apW f q t) as (evs & E & _ & Hq).
  exists f, (tl q), (t ++ evs). split; [exact E|]. split; [exact Hst|].
  intros G. destruct (H G) as (Hr & Hf & Hv & Hfn & Hvv & Hif).
  repeat (split; [assumption|]).
  destruct (ApFrame.funcLoaded f && ApFrame.valLoaded f).
  - right. split; [reflexivity|].
    destruct Hif as [[-> ->]|(_ & -> & ->)].
    + rewrite tick_ap_thunk, Hst in E. injection E as <-. now split.
    + rewrite (Hq eq_refl), app_nil_r. now split.
  - destruct Hif as [-> ->]. now rewrite (Hq eq_refl).
Qed.

Lemma ap_exec_join fv vv r bThis bThat late :
  call fv [vv] = Ok r ->
  success_good fv vv (history bThis bThat late) ->
  join_inv true fv vv r (VArr [runState bThis; runState bThat])
    (history bThis bThat late) (ap_exec bThis bThat late).
Proof.
  intros call_ok G. unfold ap_exec, history in *. rewrite ap_fork_opaque.
  change (cleanup (_ap (opaque 0 bThis) (opaque 1 bThat))) with cb01.
  pose proof (success_good_prefix fv vv) as Hpre.
  pose proof (fun h s o w => join_late false fv vv r VUndef h s o w call_ok)
    as Hlate.
  destruct (settle_all_ind _ _ Hpre Hlate This (sync bThis) []
              (apW ApFrame.fresh [] [])) as (h1 & _ & P1 & G1).
  { exists ApFrame.fresh, [], []. split; [reflexivity|].
    split; [reflexivity|]. intros _. cbn. repeat split; discriminate. }
  cbn [app] in P1, G1.
  destruct G1 as [-> O1]; [eapply good_prefix_app; eauto|].
  destruct (settle_all (sync bThis) _ _ (apW ApFrame.fresh [] []))
    as [[[]|e1] w1]; cbn [fst snd] in *; [|destruct O1].
  destruct (settle_all_ind _ _ Hpre Hlate That (sync bThat) _ w1 P1)
    as (h2 & _ & P2 & G2).
  destruct G2 as [-> O2].
  { eapply good_prefix_app; eauto. rewrite <- app_assoc. exact G. }
  destruct (settle_all (sync bThat) _ _ w1)
    as [[[]|e2] w2]; cbn [fst snd] in *; [|destruct O2].
  rewrite app_assoc.
  apply (late_ind _ _
           (fun h s o w => join_late true fv vv r _ h s o w call_ok)
           (join_tick fv vv r _)).
  destruct P2 as (f & q & t & -> & Hst & H). rewrite allState_apW.
  eexists _, _, _. split; [reflexivity|]. split; [now destruct f|].
  intros G0. destruct (H G0) as (Hr & Hf & Hv & Hfn & Hvv & Hif).
  destruct f as [fn fl v vl rj st0]; cbn in *.
  repeat (split; [assumption|]).
  destruct (fl && vl); [|assumption].
  destruct Hif as [?|(? & _)]; [now left|discriminate].
Qed.

(** X11: in [ap], cleanup follows the joined success.  When [this]
    succeeds once with [fv] and [that] once with [vv], in the call of their
    fork procedures or in later turns and in either order, the next run of
    the deferred procedures leaves this trace: the call of [delayed], the
    resolution with [fv(vv)], then the cleanup of [this] and the cleanup of
    [that], each once and on the run-state its fork returned, also when
    both inputs succeeded before their fork procedures returned. *)
Theorem ap_cleans_both_after_success fv vv r bThis bThat late :
  call fv [vv] = Ok r ->
  outs This (history bThis bThat late) = [Succeed fv] ->
  outs That (history bThis bThat late) = [Succeed vv] ->
  trace (ap_exec bThis bThat (late ++ [Tick])) =
    [CallDelayed; CallResolve r;
     CallCleanup 0 (runState bThis); CallCleanup 1 (runState bThat)]
  /\ queue (ap_exec bThis bThat (late ++ [Tick])) = []
  /\ ((trace (ap_exec bThis bThat late) = [CallDelayed; CallResolve r]
       /\ queue (ap_exec bThis bThat late) = [ap_thunk])
      \/ (trace (ap_exec bThis bThat late) =
            [CallDelayed; CallResolve r;
             CallCleanup 0 (runState bThis); CallCleanup 1 (runState bThat)]
          /\ queue (ap_exec bThis bThat late) = [])).
Proof.
  intros call_ok HT HH.
  assert (success_good fv vv (history bThis bThat late)) as G.
  { split; right; assumption. }
  destruct (ap_exec_join fv vv r bThis bThat late call_ok G)
    as (f & q & t & E & Hst & H).
  destruct (H G) as (_ & Hf & Hv & _ & _ & Hif).
  rewrite HT in Hf. rewrite HH in Hv. rewrite Hf, Hv in Hif. cbn in Hif.
  unfold ap_exec in *. rewrite !exec_snoc_tick.
  change (cleanup (_ap (opaque 0 bThis) (opaque 1 bThat))) with cb01 in *.
  cbn [ap_turn]. rewrite E.
  destruct Hif as [[-> ->]|(_ & -> & ->)].
  - rewrite tick_ap_thunk, Hst. repeat split. now left.
  - repeat split. now right.
Qed.

(** X12: when both inputs of [ap] succeed in the call of their fork
    procedures and applying the function value throws, the exception
    leaves the fork procedure of the composed Task after [delayed] has been
    called and before [allState] is assigned: no continuation is called,
    and the deferred procedure, whenever it runs, reads [state[0]] of
    [undefined] and calls neither cleanup.  When the second success
    arrives in a later turn instead, the exception is raised in that turn
    and the next run of the deferred procedures cleans both run-states. *)
Theorem ap_throwing_function fv vv e st1 st2 :
  call fv [vv] = Throw e ->
  let bThis := {| sync := [Succeed fv]; runState := st1 |} in
  let bThat := {| sync := [Succeed vv]; runState := st2 |} in
  let bLate := {| sync := []; runState := st2 |} in
  fst (fork (_ap (opaque 0 bThis) (opaque 1 bThat)) on_reject on_resolve
         empty_world) = Throw e
  /\ (forall n,
        trace (ap_exec bThis bThat (replicate n Tick)) = [CallDelayed])
  /\ fst (ap_late 0 cb01 That (Succeed vv) (ap_exec bThis bLate [])) = Throw e
  /\ trace (ap_exec bThis bLate [Late That (Succeed vv); Tick]) =
       [CallDelayed; CallCleanup 0 st1; CallCleanup 1 st2].
Proof.
  intros Hc bThis bThat bLate. subst bThis bThat bLate.
  unfold ap_exec. rewrite !ap_fork_opaque.
  change (cleanup (_ap (opaque 0 {| sync := [Succeed fv]; runState := st1 |})
                       (opaque 1 {| sync := [Succeed vv];
                                    runState := st2 |}))) with cb01.
  change (cleanup (_ap (opaque 0 {| sync := [Succeed fv]; runState := st1 |})
                       (opaque 1 {| sync := []; runState := st2 |})))
    with cb01.
  cbn [sync runState settle_all settle].
  cbn -[call tick]. unfold bind, lift. cbn -[call tick].
  rewrite !Hc. cbn -[call tick].
  repeat split.
  intros [|n]; [reflexivity|]. cbn.
  induction n as [|n IH]; [reflexivity|]. exact IH.
Qed.

(** *** map2 *)

(** The fork procedure of [ap] uses [this] through its fork procedure and
    its cleanup only. *)
Lemma ap_fork_ext this this' that reject resolve w :
  (forall k1 k2 w0, fork this k1 k2 w0 = fork this' k1 k2 w0) ->
  cleanup this = cleanup this' ->
  fork (_ap this that) reject resolve w =
    fork (_ap this' that) reject resolve w.
Proof.
  intros H Hc. cbn [_ap new_Task fork]. rewrite Hc.
  unfold bind. cbn [allocAp]. now rewrite H.
Qed.

Lemma map2_fork_as_ap f bThis bThat :
  fork (_map2 (opaque 0 bThis) f (opaque 1 bThat)) on_reject on_resolve
    empty_world =
  fork (_ap (opaque 0 {| sync := map (curried f) (sync bThis);
                         runState := runState bThis |})
            (opaque 1 bThat)) on_reject on_resolve empty_world.
Proof.
  unfold _map2. apply ap_fork_ext; [|reflexivity].
  intros k1 k2 w0. cbn [new_Task fork]. rewrite !opaque_fork.
  cbn [sync runState].
  rewrite (settle_all_map (curried f) (sync bThis) k1 k2
             (fun a => k1 a) (fun x => k2 (VPar f 2 [x]))); [reflexivity|].
  now intros [a|x].
Qed.

Lemma map2_exec_as_ap f bThis bThat late :
  map2_exec f bThis bThat late =
    ap_exec {| sync := map (curried f) (sync bThis);
               runState := runState bThis |} bThat
      (map (curried_turn f) late).
Proof.
  unfold map2_exec, ap_exec. rewrite map2_fork_as_ap.
  generalize (snd (fork (_ap (opaque 0 {| sync := map (curried f) (sync bThis);
                                         runState := runState bThis |})
                            (opaque 1 bThat)) on_reject on_resolve
                     empty_world)).
  induction late as [|t late IH]; intros w; [reflexivity|].
  cbn [map foldl]. rewrite IH. f_equal.
  destruct t as [[] [a|x]|]; reflexivity.
Qed.

Lemma curried_history f bThis bThat late :
  history {| sync := map (curried f) (sync bThis);
             runState := runState bThis |} bThat
    (map (curried_turn f) late) =
  map (curried_event f) (history bThis bThat late).
Proof.
  unfold history. cbn [sync]. rewrite !map_app, !map_map.
  assert (lates (map (curried_turn f) late) =
            map (curried_event f) (lates late)) as ->.
  { unfold lates.
    induction late as [|[[] o|] late IH]; cbn; now rewrite ?IH. }
  reflexivity.
Qed.

Lemma curried_outs f h :
  outs This (map (curried_event f) h) = map (curried f) (outs This h)
  /\ outs That (map (curried_event f) h) = outs That h.
Proof.
  unfold outs. induction h as [|[[] o] h [IH1 IH2]]; cbn; [auto| |].
  - split; [f_equal; exact IH1|exact IH2].
  - split; [exact IH1|f_equal; exact IH2].
Qed.

(** X13: [this.map2(f, t2)] has the contract of [ap] on the two success
    values.  When [this] succeeds once with [a1] and [t2] once with [a2],
    in the call of their fork procedures or in later turns and in either
    order, the only settlement is the resolution with [f(a1, a2)]; when an
    input fails while at most one has succeeded, the only settlement is
    that failure. *)
Theorem map2_contract f bThis bThat late :
  (forall a1 a2 r,
     call f [a1; a2] = Ok r ->
     outs This (history bThis bThat late) = [Succeed a1] ->
     outs That (history bThis bThat late) = [Succeed a2] ->
     settlements (map2_exec f bThis bThat late) = [CallResolve r])
  /\ (forall pre s a post,
        history bThis bThat late = pre ++ (s, Fail a) :: post ->
        Forall is_success pre ->
        outs This pre = [] \/ outs That pre = [] ->
        settlements (map2_exec f bThis bThat late) = [CallReject a]).
Proof.
  split.
  - intros a1 a2 r Hc HT HH. rewrite map2_exec_as_ap.
    pose proof (curried_history f bThis bThat late) as Hh.
    destruct (curried_outs f (history bThis bThat late)) as [HoT HoH].
    assert (call (VPar f 2 [a1]) [a2] = Ok r) as Hc' by exact Hc.
    rewrite (ap_success_settlements (VPar f 2 [a1]) a2 r Hc').
    + now rewrite Hh, HoT, HoH, HT, HH.
    + unfold success_good. rewrite Hh, HoT, HoH, HT, HH.
      split; right; reflexivity.
  - intros pre s a post Hh Hs Hside. rewrite map2_exec_as_ap.
    unfold settlements.
    assert (history {| sync := map (curried f) (sync bThis);
                       runState := runState bThis |} bThat
              (map (curried_turn f) late) =
            map (curried_event f) pre
              ++ (s, Fail a) :: map (curried_event f) post) as Hh'.
    { rewrite curried_history, Hh, map_app. cbn [map]. f_equal. f_equal.
      now destruct s. }
    assert (Forall is_success (map (curried_event f) pre)) as Hs'.
    { clear -Hs. induction Hs as [|[[] [a|x]] l Hx Hl IH]; cbn;
        constructor; auto. }
    assert (outs This (map (curried_event f) pre) = []
            \/ outs That (map (curried_event f) pre) = []) as Hside'.
    { destruct (curried_outs f pre) as [-> ->].
      destruct Hside as [-> | ->]; auto. }
    now rewrite (proj1 (ap_fail_first_trace _ _ _ _ _ _ _ Hh' Hs' Hside')).
Qed.

(** *** Locality of the fork procedures *)

Lemma moved_bind {A B} W (m m0 : M A) (k k0 : A -> M B) w :
  m (after W w) = moved W (m0 w) ->
  (forall a w1, k a (after W w1) = moved W (k0 a w1)) ->
  bind m k (after W w) = moved W (bind m0 k0 w).
Proof.
  intros Hm Hk. unfold bind. rewrite Hm.
  destruct (m0 w) as [[a|e] w1]; cbn; [apply Hk|reflexivity].
Qed.

Lemma after_getAp W fr w :
  getAp (length (apFrames W) + fr) (after W w) = moved W (getAp fr w).
Proof.
  unfold getAp, moved. cbn. f_equal. f_equal.
  rewrite lookup_total_app_r by lia. f_equal. lia.
Qed.

Lemma after_modifyAp W fr g w :
  modifyAp (length (apFrames W) + fr) g (after W w) =
    moved W (modifyAp fr g w).
Proof.
  unfold modifyAp, moved, after. cbn. f_equal. f_equal.
  rewrite insert_app_r. f_equal. f_equal. f_equal.
  rewrite lookup_total_app_r by lia. f_equal. lia.
Qed.

Lemma after_getConcat W fr w :
  getConcat (length (concatFrames W) + fr) (after W w) =
    moved W (getConcat fr w).
Proof.
  unfold getConcat, moved. cbn. f_equal. f_equal.
  rewrite lookup_total_app_r by lia. f_equal. lia.
Qed.

Lemma after_modifyConcat W fr g w :
  modifyConcat (length (concatFrames W) + fr) g (after W w) =
    moved W (modifyConcat fr g w).
Proof.
  unfold modifyConcat, moved, after. cbn. f_equal. f_equal.
  rewrite insert_app_r. f_equal. f_equal. f_equal.
  rewrite lookup_total_app_r by lia. f_equal. lia.
Qed.

Lemma after_emit W e w : emit e (after W w) = moved W (emit e w).
Proof. unfold emit, moved, after. cbn. now rewrite app_assoc. Qed.

Lemma after_delayed W th w :
  delayed (shift_thunk (length (apFrames W)) (length (concatFrames W)) th)
    (after W w) = moved W (delayed th w).
Proof.
  unfold delayed, moved, after. cbn.
  now rewrite map_app, !app_assoc.
Qed.

Lemma after_empty W : after W empty_world = W.
Proof. destruct W. unfold after. cbn. now rewrite !app_nil_r. Qed.

Lemma follows_observer W :
  follows W on_reject on_reject /\ follows W on_resolve on_resolve.
Proof.
  split; intros x w; (apply moved_bind; [apply after_emit|reflexivity]).
Qed.

Lemma follows_guardReject W fr reject reject0 :
  follows W reject reject0 ->
  follows W (guardReject (length (apFrames W) + fr) reject)
    (guardReject fr reject0).
Proof.
  intros H x w. apply moved_bind; [apply after_getAp|].
  intros f w1. destruct (negb (ApFrame.rejected f)); [|reflexivity].
  apply moved_bind; [apply after_modifyAp|]. intros _ w2. apply H.
Qed.

Lemma follows_guardResolve W fr cb resolve resolve0
    (setter setter0 : Val -> M unit) :
  follows W resolve resolve0 ->
  (forall x w, setter x (after W w) = moved W (setter0 x w)) ->
  follows W (guardResolve (length (apFrames W) + fr) cb resolve setter)
    (guardResolve fr cb resolve0 setter0).
Proof.
  intros H Hs x w. apply moved_bind; [apply after_getAp|].
  intros f w1. destruct (ApFrame.rejected f); [reflexivity|].
  apply moved_bind; [apply Hs|]. intros _ w2.
  apply moved_bind; [apply after_getAp|]. intros f' w3.
  destruct (_ && _); [|reflexivity].
  apply moved_bind.
  { exact (after_delayed W {| thunk_cleanup := cb; thunk_frame := InAp fr |}
             w3). }
  intros _ w4. apply moved_bind; [reflexivity|]. intros r w5. apply H.
Qed.

Lemma after_setters W fr :
  (forall x w,
     setFunc (length (apFrames W) + fr) x (after W w) =
       moved W (setFunc fr x w))
  /\ (forall x w,
        setVal (length (apFrames W) + fr) x (after W w) =
          moved W (setVal fr x w)).
Proof.
  split; intros x w;
    (apply moved_bind; [apply after_modifyAp|]); intros _ w1;
    apply after_modifyAp.
Qed.

Lemma follows_guard W fr cb f f0 :
  follows W f f0 ->
  follows W (guard (length (concatFrames W) + fr) cb f) (guard fr cb f0).
Proof.
  intros H x w. apply moved_bind; [apply after_getConcat|].
  intros c w1. destruct (negb (ConcatFrame.done c)); [|reflexivity].
  apply moved_bind; [apply after_modifyConcat|]. intros _ w2.
  apply moved_bind.
  { exact (after_delayed W
             {| thunk_cleanup := cb; thunk_frame := InConcat fr |} w2). }
  intros _ w3. apply H.
Qed.

Lemma allocAp_bind {A} (k : nat -> M A) w :
  bind allocAp k w = k (length (apFrames w)) (snd (allocAp w)).
Proof. reflexivity. Qed.

Lemma allocConcat_bind {A} (k : nat -> M A) w :
  bind allocConcat k w = k (length (concatFrames w)) (snd (allocConcat w)).
Proof. reflexivity. Qed.

Lemma local_opaque tag b : local (opaque tag b).
Proof.
  intros W k1 k2 k1' k2' H1 H2 w. cbn [opaque new_Task fork].
  apply moved_bind; [|reflexivity].
  revert w. induction (sync b) as [|o os IH]; intros w; [reflexivity|].
  cbn [settle_all]. apply moved_bind; [|intros _ w1; apply IH].
  destruct o; [apply H1|apply H2].
Qed.

Lemma local_ap this that : local this -> local that -> local (_ap this that).
Proof.
  intros Hthis Hthat W k1 k2 k1' k2' H1 H2 w. cbn [_ap new_Task fork].
  rewrite !allocAp_bind.
  replace (snd (allocAp (after W w))) with (after W (snd (allocAp w))).
  2:{ unfold after. cbn. now rewrite app_assoc. }
  replace (length (apFrames (after W w)))
    with (length (apFrames W) + length (apFrames w)).
  2:{ cbn. now rewrite length_app. }
  destruct (after_setters W (length (apFrames w))) as [HsF HsV].
  apply moved_bind.
  { apply Hthis; [now apply follows_guardReject
                 |now apply follows_guardResolve]. }
  intros thisState w1. apply moved_bind.
  { apply Hthat; [now apply follows_guardReject
                 |now apply follows_guardResolve]. }
  intros thatState w2. apply moved_bind; [apply after_modifyAp|].
  reflexivity.
Qed.

Lemma local_concat this that :
  local this -> local that -> local (_concat this that).
Proof.
  intros Hthis Hthat W k1 k2 k1' k2' H1 H2 w. cbn [_concat new_Task fork].
  rewrite !allocConcat_bind.
  replace (snd (allocConcat (after W w)))
    with (after W (snd (allocConcat w))).
  2:{ unfold after. cbn. now rewrite app_assoc. }
  replace (length (concatFrames (after W w)))
    with (length (concatFrames W) + length (concatFrames w)).
  2:{ cbn. now rewrite length_app. }
  apply moved_bind.
  { apply Hthis; now apply follows_guard. }
  intros thisState w1. apply moved_bind.
  { apply Hthat; now apply follows_guard. }
  intros thatState w2. apply moved_bind; [apply after_modifyConcat|].
  reflexivity.
Qed.

Lemma follows_call W f (k k0 : Cont) :
  follows W k k0 ->
  follows W (fun x => r <- lift (call f [x]);; k r)
    (fun x => r <- lift (call f [x]);; k0 r).
Proof.
  intros H x w. apply moved_bind; [reflexivity|]. intros r w1. apply H.
Qed.

Lemma follows_eta W (k k0 : Cont) :
  follows W k k0 -> follows W (fun x => k x) (fun x => k0 x).
Proof. intros H x w. apply H. Qed.

Lemma local_map2 this f t2 :
  local this -> local t2 -> local (_map2 this f t2).
Proof.
  intros Hthis Ht2. unfold _map2. apply local_ap; [|exact Ht2].
  intros W k1 k2 k1' k2' H1 H2 w. cbn [new_Task fork].
  apply Hthis; [now apply follows_eta|]. intros x w1. apply H2.
Qed.

(** X14: the fork procedures are local.  A Task built by the
    constructors and combinators of the module from local Tasks is local:
    forked after any world, by the observer, it returns what it returns in
    the empty world and leaves that world as it was, followed by its own
    frames, deferred procedures and calls.  So a Task forked twice makes
    the calls of one fork twice: the latches and recorded values of one
    fork invocation are not seen by the next. *)
Theorem forks_are_local :
  (forall tag b, local (opaque tag b))
  /\ (forall v, local (_of v) /\ local (_rejected v))
  /\ local _empty
  /\ (forall this that,
        local this -> local that ->
        local (_ap this that) /\ local (_concat this that))
  /\ (forall this f g pattern,
        local this ->
        local (_map this f) /\ local (_rejectedMap this f)
        /\ local (_bimap this f g) /\ local (_fold this f g)
        /\ local (_cata this pattern) /\ local (_swap this))
  /\ (forall this (k : Val -> Task),
        local this -> (forall x, local (k x)) ->
        local (_chain this k) /\ local (_orElse this k))
  /\ (forall this f t2,
        local this -> local t2 -> local (_map2 this f t2))
  /\ (forall t,
        local t ->
        (forall W,
           fork t on_reject on_resolve W =
             moved W (fork t on_reject on_resolve empty_world))
        /\ trace (snd (fork t on_reject on_resolve
                         (snd (fork t on_reject on_resolve empty_world)))) =
             trace (snd (fork t on_reject on_resolve empty_world))
             ++ trace (snd (fork t on_reject on_resolve empty_world))).
Proof.
  assert (forall t, local t ->
            forall W,
              fork t on_reject on_resolve W =
                moved W (fork t on_reject on_resolve empty_world)) as Hobs.
  { intros t Ht W. rewrite <- (after_empty W) at 1.
    apply Ht; apply follows_observer. }
  split; [exact local_opaque|].
  split.
  { intros v. split; intros W k1 k2 k1' k2' H1 H2 w; [apply H2|apply H1]. }
  split.
  { intros W k1 k2 k1' k2' H1 H2 w. reflexivity. }
  split.
  { intros this that Hthis Hthat.
    split; [now apply local_ap|now apply local_concat]. }
  split.
  { intros this f g pattern H.
    split; [|split; [|split; [|split; [|split]]]];
      intros W k1 k2 k1' k2' H1 H2 w;
      cbn [_map _rejectedMap _bimap _fold _cata _swap new_Task fork];
      apply H;
      first [now apply follows_call | now apply follows_eta]. }
  split.
  { intros this k H Hk.
    split; intros W k1 k2 k1' k2' H1 H2 w;
      cbn [_chain _orElse new_Task fork]; apply H;
      first [now apply follows_eta | intros x w1; now apply Hk]. }
  split; [exact local_map2|].
  intros t Ht. split; [now apply Hobs|].
  rewrite (Hobs t Ht (snd (fork t on_reject on_resolve empty_world))).
  reflexivity.
Qed.

End TaskCode.

(** ** Instances *)

Lemma ap_joins_successes_witness :
  call example_native (VFun 0 []) [VNum 41] = Ok (VNum 42)
  /\ settlements
       (ap_exec example_native
          {| sync := []; runState := VUndef |}
          {| sync := [Succeed (VNum 41)]; runState := VUndef |}
          [Tick; Late This (Succeed (VFun 0 []))])
     = [CallResolve (VNum 42)].
Proof.
  split; [reflexivity|].
  apply (proj1 (ap_joins_successes example_native)
           (VFun 0 []) (VNum 41) (VNum 42)
           {| sync := []; runState := VUndef |}
           {| sync := [Succeed (VNum 41)]; runState := VUndef |}
           [Tick; Late This (Succeed (VFun 0 []))]).
  - reflexivity.
  - right. reflexivity.
  - right. reflexivity.
Defined.

Lemma ap_first_failure_wins_witness :
  settlements
    (ap_exec example_native
       {| sync := []; runState := VUndef |}
       {| sync := [Succeed (VNum 5)]; runState := VUndef |}
       [Late This (Fail (VNum 1)); Late That (Fail (VNum 2))])
  = [CallReject (VNum 1)].
Proof.
  apply (proj1 (ap_first_failure_wins example_native)
           {| sync := []; runState := VUndef |}
           {| sync := [Succeed (VNum 5)]; runState := VUndef |}
           [Late This (Fail (VNum 1)); Late That (Fail (VNum 2))]
           [(That, Succeed (VNum 5))] This (VNum 1) [(That, Fail (VNum 2))]).
  - reflexivity.
  - repeat constructor.
  - left. reflexivity.
Defined.

Lemma ap_failure_skips_cleanup_witness :
  schedulings
    (ap_exec example_native
       {| sync := [Succeed (VFun 0 [])]; runState := VStr "handle" |}
       {| sync := []; runState := VUndef |}
       [Late That (Fail (VNum 1)); Tick]) = []
  /\ cleanups
       (ap_exec example_native
          {| sync := [Succeed (VFun 0 [])]; runState := VStr "handle" |}
          {| sync := []; runState := VUndef |}
          [Late That (Fail (VNum 1)); Tick]) = []
  /\ queue
       (ap_exec example_native
          {| sync := [Succeed (VFun 0 [])]; runState := VStr "handle" |}
          {| sync := []; runState := VUndef |}
          [Late That (Fail (VNum 1)); Tick]) = [].
Proof.
  apply (ap_failure_skips_cleanup example_native
           {| sync := [Succeed (VFun 0 [])]; runState := VStr "handle" |}
           {| sync := []; runState := VUndef |}
           [Late That (Fail (VNum 1)); Tick]
           [(This, Succeed (VFun 0 []))] That (VNum 1) []).
  - reflexivity.
  - repeat constructor.
  - right. reflexivity.
Defined.

(** C4 does not hold of [ap]: its guard of the success continuation sets no
    latch.  Forked on a [this] that resolves once, with the successor
    function, and a [that] that resolves twice, with 1 and then 2,
    [this.ap(that)] calls its success continuation twice, with 2 and then 3.
    The guards beside it do latch: the Task built by [concat] calls at most
    one continuation, at most once, whatever its inputs do (once on these
    two), and whatever its inputs do the Task built by [ap] calls its
    failure continuation at most once and no continuation after it. *)
Theorem ap_resolves_twice :
  settlements
    (ap_exec example_native
       {| sync := [Succeed (VFun 0 [])]; runState := VUndef |}
       {| sync := [Succeed (VNum 1); Succeed (VNum 2)]; runState := VUndef |}
       [])
  = [CallResolve (VNum 2); CallResolve (VNum 3)]
  /\ settlements
       (concat_exec
          {| sync := [Succeed (VFun 0 [])]; runState := VUndef |}
          {| sync := [Succeed (VNum 1); Succeed (VNum 2)];
             runState := VUndef |}
          [])
     = [CallResolve (VFun 0 [])]
  /\ (forall bThis bThat late,
        length (settlements (concat_exec bThis bThat late)) <= 1)
  /\ (forall native bThis bThat late,
        exists rs tl,
          settlements (ap_exec native bThis bThat late) =
            map CallResolve rs ++ tl
          /\ (tl = [] \/ exists a, tl = [CallReject a]))
  /\ ~ (forall bThis bThat late,
          length (settlements (ap_exec example_native bThis bThat late)) <= 1
          /\ length (settlements (concat_exec bThis bThat late)) <= 1).
Proof.
  split; [reflexivity|]. split; [reflexivity|]. split; [|split].
  - intros bThis bThat late. rewrite concat_settlements.
    destruct (history bThis bThat late); cbn; lia.
  - intros native. apply ap_failure_latched.
  - intros H.
    specialize (H {| sync := [Succeed (VFun 0 [])]; runState := VUndef |}
                  {| sync := [Succeed (VNum 1); Succeed (VNum 2)];
                     runState := VUndef |} []).
    destruct H as [H _]. cbn in H. lia.
Qed.

Lemma transformers_keep_cleanup_and_run_state_witness :
  fork (transform example_native (Map (VFun 0 []))
          (opaque 3 {| sync := [Succeed (VNum 1)]; runState := VNum 7 |}))
    on_reject on_resolve empty_world
  = (Ok (VNum 7),
     {| apFrames := []; concatFrames := []; queue := [];
        trace := [CallResolve (VNum 2)] |})
  /\ VNum 7 =
       runState {| sync := [Succeed (VNum 1)]; runState := VNum 7 |}.
Proof.
  split; [reflexivity|].
  apply (proj2 (proj2 (transformers_keep_cleanup_and_run_state example_native
           (Map (VFun 0 []))
           (opaque 3 {| sync := [Succeed (VNum 1)]; runState := VNum 7 |})))
           3 {| sync := [Succeed (VNum 1)]; runState := VNum 7 |}
           on_reject on_resolve empty_world (VNum 7)
           {| apFrames := []; concatFrames := []; queue := [];
              trace := [CallResolve (VNum 2)] |}).
  reflexivity.
Defined.


(** ** Instances of the further properties *)

Lemma map_functor_laws_witness :
  (forall x, call law_native (VFun 0 []) [x] = Ok x)
  /\ fork (_map law_native
             (opaque 0 {| sync := [Succeed (VNum 1); Fail (VNum 2)];
                          runState := VUndef |}) (VFun 0 []))
       on_reject on_resolve empty_world
     = fork (opaque 0 {| sync := [Succeed (VNum 1); Fail (VNum 2)];
                         runState := VUndef |})
         on_reject on_resolve empty_world.
Proof.
  split; [reflexivity|].
  apply (proj1 (map_functor_laws law_native 0
                  {| sync := [Succeed (VNum 1); Fail (VNum 2)];
                     runState := VUndef |}
                  on_reject on_resolve empty_world) (VFun 0 [])).
  reflexivity.
Defined.

Lemma untouched_channel_passes_witness :
  Forall failing [Fail (VNum 1); Fail (VNum 2)]
  /\ fork (_map example_native
             (opaque 0 {| sync := [Fail (VNum 1); Fail (VNum 2)];
                          runState := VUndef |}) (VFun 0 []))
       on_reject on_resolve empty_world
     = fork (opaque 0 {| sync := [Fail (VNum 1); Fail (VNum 2)];
                         runState := VUndef |})
         on_reject on_resolve empty_world.
Proof.
  assert (Forall failing [Fail (VNum 1); Fail (VNum 2)]) as H
    by (repeat constructor).
  split; [exact H|].
  apply (proj1 (untouched_channel_passes example_native 0
                  {| sync := [Fail (VNum 1); Fail (VNum 2)];
                     runState := VUndef |}
                  on_reject on_resolve empty_world)
           H (VFun 0 []) (fun _ => _empty)).
Defined.

Lemma thrown_exceptions_escape_witness :
  call law_native (VFun 4 []) [VNum 7] = Throw (Thrown (VNum 7))
  /\ fork (_map law_native (_of (VNum 7)) (VFun 4 []))
       on_reject on_resolve empty_world
     = (Throw (Thrown (VNum 7)), empty_world).
Proof.
  split; [reflexivity|].
  apply (thrown_exceptions_escape law_native (VFun 4 []) (VNum 7)
           (Thrown (VNum 7)) 0 [] VUndef on_reject on_resolve empty_world).
  reflexivity.
Defined.

Lemma cleanup_takes_fork_run_state_witness :
  fork (build example_native
          (Applied (Leaf 0 {| sync := []; runState := VStr "a" |})
                   (Raced (Leaf 1 {| sync := []; runState := VStr "b" |})
                          (Leaf 2 {| sync := []; runState := VStr "c" |}))))
    on_reject on_resolve empty_world
  = (Ok (VArr [VStr "a"; VArr [VStr "b"; VStr "c"]]),
     {| apFrames :=
          [ApFrame.set_allState (VArr [VStr "a"; VArr [VStr "b"; VStr "c"]])
             ApFrame.fresh];
        concatFrames :=
          [ConcatFrame.set_allState (VArr [VStr "b"; VStr "c"])
             ConcatFrame.fresh];
        queue := []; trace := [] |})
  /\ call_cleanup
       (cleanup
          (build example_native
             (Applied (Leaf 0 {| sync := []; runState := VStr "a" |})
                      (Raced (Leaf 1 {| sync := []; runState := VStr "b" |})
                             (Leaf 2 {| sync := [];
                                        runState := VStr "c" |})))))
       (VArr [VStr "a"; VArr [VStr "b"; VStr "c"]]) empty_world
     = (Ok tt,
        recorded empty_world
          [CallCleanup 0 (VStr "a"); CallCleanup 1 (VStr "b");
           CallCleanup 2 (VStr "c")]).
Proof.
  assert (fork (build example_native
                  (Applied (Leaf 0 {| sync := []; runState := VStr "a" |})
                     (Raced (Leaf 1 {| sync := []; runState := VStr "b" |})
                        (Leaf 2 {| sync := []; runState := VStr "c" |}))))
            on_reject on_resolve empty_world
          = (Ok (VArr [VStr "a"; VArr [VStr "b"; VStr "c"]]),
             {| apFrames :=
                  [ApFrame.set_allState
                     (VArr [VStr "a"; VArr [VStr "b"; VStr "c"]])
                     ApFrame.fresh];
                concatFrames :=
                  [ConcatFrame.set_allState (VArr [VStr "b"; VStr "c"])
                     ConcatFrame.fresh];
                queue := []; trace := [] |})) as H by reflexivity.
  split; [exact H|].
  exact (proj2 (cleanup_takes_fork_run_state example_native _ _ _ _ _ _ H)
           empty_world).
Defined.

Lemma empty_is_concat_identity_witness :
  settlements
    (concat_exec {| sync := []; runState := VUndef |}
                 {| sync := []; runState := VUndef |}
                 [Tick; Late This (Fail (VNum 1));
                  Late This (Succeed (VNum 2))])
  = [CallReject (VNum 1)].
Proof.
  apply (proj1 (proj2 empty_is_concat_identity)
           {| sync := []; runState := VUndef |}
           {| sync := []; runState := VUndef |}
           [Tick; Late This (Fail (VNum 1)); Late This (Succeed (VNum 2))]).
  reflexivity.
Defined.

Lemma concat_cleans_both_after_settlement_witness :
  trace
    (concat_exec {| sync := []; runState := VStr "slow" |}
                 {| sync := [Succeed (VNum 1)]; runState := VStr "fast" |}
                 ([Late This (Succeed (VNum 2))] ++ [Tick]))
  = [CallDelayed; CallResolve (VNum 1);
     CallCleanup 0 (VStr "slow"); CallCleanup 1 (VStr "fast")].
Proof.
  apply (proj2 (concat_cleans_both_after_settlement
                  {| sync := []; runState := VStr "slow" |}
                  {| sync := [Succeed (VNum 1)]; runState := VStr "fast" |}
                  [Late This (Succeed (VNum 2))])
           (That, Succeed (VNum 1)) [(This, Succeed (VNum 2))]).
  reflexivity.
Defined.

Lemma ap_cleans_both_after_success_witness :
  trace
    (ap_exec example_native
       {| sync := [Succeed (VFun 0 [])]; runState := VStr "f" |}
       {| sync := [Succeed (VNum 41)]; runState := VStr "v" |}
       ([] ++ [Tick]))
  = [CallDelayed; CallResolve (VNum 42);
     CallCleanup 0 (VStr "f"); CallCleanup 1 (VStr "v")].
Proof.
  apply (ap_cleans_both_after_success example_native
           (VFun 0 []) (VNum 41) (VNum 42)
           {| sync := [Succeed (VFun 0 [])]; runState := VStr "f" |}
           {| sync := [Succeed (VNum 41)]; runState := VStr "v" |} []);
    reflexivity.
Defined.

Lemma ap_throwing_function_witness :
  call example_native (VNum 5) [VNum 1] = Throw (TypeError "not a function")
  /\ trace
       (ap_exec example_native
          {| sync := [Succeed (VNum 5)]; runState := VStr "f" |}
          {| sync := [Succeed (VNum 1)]; runState := VStr "v" |}
          (replicate 2 Tick))
     = [CallDelayed].
Proof.
  split; [reflexivity|].
  apply (proj1 (proj2 (ap_throwing_function example_native (VNum 5) (VNum 1)
                         (TypeError "not a function")
                         (VStr "f") (VStr "v") eq_refl)) 2).
Defined.

Lemma map2_contract_witness :
  settlements
    (map2_exec law_native (VFun 3 [])
       {| sync := []; runState := VUndef |}
       {| sync := [Succeed (VNum 2)]; runState := VUndef |}
       [Late This (Succeed (VNum 40))])
  = [CallResolve (VNum 42)].
Proof.
  apply (proj1 (map2_contract law_native (VFun 3 [])
                  {| sync := []; runState := VUndef |}
                  {| sync := [Succeed (VNum 2)]; runState := VUndef |}
                  [Late This (Succeed (VNum 40))])
           (VNum 40) (VNum 2) (VNum 42)); reflexivity.
Defined.

Lemma forks_are_local_witness :
  local (_ap example_native (_rejected (VNum 1)) (_of (VNum 2)))
  /\ trace
       (snd (fork (_ap example_native (_rejected (VNum 1)) (_of (VNum 2)))
               on_reject on_resolve
               (snd (fork (_ap example_native (_rejected (VNum 1))
                             (_of (VNum 2)))
                       on_reject on_resolve empty_world))))
     = [CallReject (VNum 1); CallReject (VNum 1)].
Proof.
  assert (local (_ap example_native (_rejected (VNum 1)) (_of (VNum 2))))
    as H.
  { apply (proj1 (proj2 (proj2 (proj2 (forks_are_local example_native))))).
    - apply (proj1 (proj2 (forks_are_local example_native))).
    - apply (proj1 (proj2 (forks_are_local example_native))). }
  split; [exact H|].
  exact (proj2 (proj2 (proj2 (proj2 (proj2 (proj2 (proj2 (proj2
           (forks_are_local example_native))))))) _ H)).
Defined.

Lemma ap_settles_once_until_join_witness :
  (join_is_last
     (history
        {| sync := [Succeed (VFun 0 []); Succeed (VFun 0 [])];
           runState := VUndef |}
        {| sync := [Succeed (VNum 5)]; runState := VUndef |} [])
   /\ length
        (settlements
           (ap_exec example_native
              {| sync := [Succeed (VFun 0 []); Succeed (VFun 0 [])];
                 runState := VUndef |}
              {| sync := [Succeed (VNum 5)]; runState := VUndef |} [])) <= 1)
  /\ (single
        (history
           {| sync := [Succeed (VFun 0 [])]; runState := VUndef |}
           {| sync := []; runState := VUndef |}
           [Late That (Succeed (VNum 1))])
      /\ length
           (settlements
              (ap_exec example_native
                 {| sync := [Succeed (VFun 0 [])]; runState := VUndef |}
                 {| sync := []; runState := VUndef |}
                 [Late That (Succeed (VNum 1))])) <= 1)
  /\ (calls_return example_native
        (history
           {| sync := [Succeed (VFun 0 [])]; runState := VUndef |}
           {| sync := [Succeed (VNum 1); Succeed (VNum 2)];
              runState := VUndef |} []) = true
      /\ 2 <= length
                (settlements
                   (ap_exec example_native
                      {| sync := [Succeed (VFun 0 [])]; runState := VUndef |}
                      {| sync := [Succeed (VNum 1); Succeed (VNum 2)];
                         runState := VUndef |} []))).
Proof.
  assert (single
            (history
               {| sync := [Succeed (VFun 0 [])]; runState := VUndef |}
               {| sync := []; runState := VUndef |}
               [Late That (Succeed (VNum 1))])) as Hsingle.
  { split; cbn; lia. }
  split; [|split].
  - split; [reflexivity|].
    apply (proj1 (ap_settles_once_until_join example_native
                    {| sync := [Succeed (VFun 0 []); Succeed (VFun 0 [])];
                       runState := VUndef |}
                    {| sync := [Succeed (VNum 5)]; runState := VUndef |} [])).
    reflexivity.
  - split; [exact Hsingle|].
    exact (proj1 (proj2 (ap_settles_once_until_join example_native
                    {| sync := [Succeed (VFun 0 [])]; runState := VUndef |}
                    {| sync := []; runState := VUndef |}
                    [Late That (Succeed (VNum 1))])) Hsingle).
  - split; [reflexivity|].
    apply (proj2 (proj2 (ap_settles_once_until_join example_native
                    {| sync := [Succeed (VFun 0 [])]; runState := VUndef |}
                    {| sync := [Succeed (VNum 1); Succeed (VNum 2)];
                       runState := VUndef |} []))).
    + reflexivity.
    + discriminate.
Defined.
